(** * Verification of launcher/download_mods.py

    A shallow embedding of the mod reconciliation script
    [src/launcher/download_mods.py] and the proofs of its specification.

    Python [str] values are modelled by [string] (a sequence of bytes, the
    UTF-8 encoding of the text).  The script only looks for the ASCII
    characters of [".zip"], ["_"] and ["?"], and no byte of a multi-byte
    UTF-8 sequence is an ASCII byte, so searching bytes and searching code
    points agree.  Python [int] counters only grow from 0 and are [nat];
    the index returned by [str.rfind], which may be [-1], is a [Z].
    A [dict] with string keys is a [gmap string _], a [set] of strings a
    [gset string].

    The JSON documents are typed as the script annotates and uses them:
    the ["name"] of a declared entry is a string and its ["enabled"] a
    boolean, the fields of a release are strings, and either may be
    missing.  The network is a pair of functions (the answer of the
    catalog to a url, the fate of a transfer); the [mods] directory is the
    list of its file names.  What the script does not catch (a malformed
    [mod-list.json], an operating-system error on [unlink]) is outside the
    model, with one exception: a lookup of the catalog may raise past the
    [except] clauses of [fetch_mod_info], and the run then ends there. *)

From Stdlib Require Import ZArith Ascii String List Lia Bool.
From stdpp Require Import base decidable option list gmap strings.

Local Open Scope Z_scope.
Local Open Scope nat_scope.

(** ** Python string primitives *)

Module PyStr.

(** [take k s] is the slice [s[:k]] for [0 <= k]. *)
Fixpoint take (k : nat) (s : string) : string :=
  match k, s with
  | S k', String a s' => String a (take k' s')
  | _, _ => EmptyString
  end.

(** [drop k s] is the slice [s[k:]] for [0 <= k]. *)
Fixpoint drop (k : nat) (s : string) : string :=
  match k, s with
  | S k', String _ s' => drop k' s'
  | _, _ => s
  end.

(** Python normalises a slice bound: a negative bound counts from the
    end, and the result is clipped to [0 .. len]. *)
Definition clip (len : nat) (i : Z) : nat :=
  if (i <? 0)%Z then Z.to_nat (Z.max 0 (Z.of_nat len + i))
  else Z.to_nat (Z.min i (Z.of_nat len)).

(** [s[:i]] *)
Definition slice_to (s : string) (i : Z) : string :=
  take (clip (String.length s) i) s.

(** [s[i:]] *)
Definition slice_from (s : string) (i : Z) : string :=
  drop (clip (String.length s) i) s.

(** [s.endswith(suffix)] *)
Definition endswith (s suffix : string) : bool :=
  (String.length suffix <=? String.length s)
  && String.eqb (drop (String.length s - String.length suffix) s) suffix.

(** [c in s] for a one-character string [c]. *)
Fixpoint contains (c : ascii) (s : string) : bool :=
  match s with
  | EmptyString => false
  | String a s' => Ascii.eqb a c || contains c s'
  end.

(** Left-to-right scan that remembers the last index at which [c] was
    seen; [i] is the index of the head of [s], [acc] the index found so
    far. *)
Fixpoint rfind_from (i : Z) (acc : Z) (c : ascii) (s : string) : Z :=
  match s with
  | EmptyString => acc
  | String a s' =>
      rfind_from (i + 1) (if Ascii.eqb a c then i else acc) c s'
  end.

(** [s.rfind(c)]: the highest index of [c] in [s], or [-1]. *)
Definition rfind (s : string) (c : ascii) : Z := rfind_from 0 (-1) c s.

(** Truth value of a string: [""] is false. *)
Definition truthy (s : string) : bool :=
  match s with EmptyString => false | _ => true end.

End PyStr.

(** ** Configuration constants *)

Definition MODS_DIR : string := "mods".
Definition API_BASE_URL : string := "https://mods.factorio.com/api/mods".
Definition DOWNLOAD_BASE_URL : string := "https://mods.factorio.com".

(** Base game mods that are provided with Factorio. *)
Definition BASE_GAME_MODS : gset string :=
  {[ "base"; "elevated-rails"; "quality"; "space-age" ]}.

(** ** [parse_mod_filename] *)

Definition parse_mod_filename (filename : string) : option (string * string) :=
  if negb (PyStr.endswith filename ".zip") then None
  else
    let base := PyStr.slice_to filename (-4) in
    let last_underscore := PyStr.rfind base "_" in
    if (last_underscore =? -1)%Z then None
    else
      let mod_name := PyStr.slice_to base last_underscore in
      let version := PyStr.slice_from base (last_underscore + 1) in
      if negb (PyStr.truthy mod_name) || negb (PyStr.truthy version) then None
      else Some (mod_name, version).

(** ** Data model *)

(** One entry of the ["mods"] array of [mod-list.json].  Either field may
    be missing from the JSON object; [entry_extra] are the fields the
    script passes through untouched. *)
Record mod_entry := {
  entry_name : option string;
  entry_enabled : option bool;
  entry_extra : list (string * string)
}.

(** The declaration document; the ["mods"] key itself may be missing. *)
Record mod_list := { ml_mods : option (list mod_entry) }.

(** A release object of the catalog: a JSON object with string fields
    (["version"], ["download_url"], ["file_name"], ...). *)
Abbreviation release := (gmap string string).

(** The catalog's answer for one mod: the ["releases"] array, if the key
    is there, and the names of the other keys of the object. *)
Record mod_info := {
  info_releases : option (list release);
  info_other_keys : list string
}.

(** Truth value of a [dict]: false exactly for the empty one. *)
Definition mod_info_truthy (i : mod_info) : bool :=
  match info_releases i, info_other_keys i with
  | None, [] => false
  | _, _ => true
  end.

Definition release_truthy (r : release) : bool := bool_decide (r ≠ ∅).

(** What a transfer of [download_mod] can do: run to completion, fail in
    [urlopen] before the output file is opened, or fail while the body is
    streamed into the already opened file. *)
Inductive transfer := Complete | FailedBeforeOpen | FailedWhileWriting.

(** What a call of [fetch_mod_info] does.  It returns the parsed answer,
    or [None] after one of the three exceptions it catches (HTTPError,
    URLError, JSONDecodeError).  Any other exception of the request is
    not caught and propagates to the caller: InvalidURL for a name with
    a space, a timeout while the body is read, a body that is not UTF-8. *)
Inductive lookup :=
| Returned (mod_info : option mod_info)
| Raised.

(** The network as the script sees it: what a GET on an API url does,
    and the fate of a download url.  The catalog is a state: asking
    twice gives the same answer. *)
Record network := {
  api_get : string → lookup;
  download_get : string → transfer
}.

(** What a run does, item by item and file by file: the lines it prints
    ("Failed to fetch mod info", "No releases found", "Deleting disabled
    mod", "Deleting outdated mod"), the silent skip of an item whose file
    exists (its print is commented out in the script), and the calls of
    [download_mod] with their result. *)
Inductive event :=
| LookupFailed (mod_name : string)
| NoReleases (mod_name : string)
| AlreadyExists (mod_name filename : string)
| Downloaded (mod_name filename : string) (ok : bool)
| DeletedDisabled (filename : string)
| DeletedOutdated (filename latest : string).

Global Instance event_eq_dec : EqDecision event.
Proof. solve_decision. Defined.

(** ** Storage: the listing of the [mods] directory *)

Definition path_exists (files : list string) (f : string) : bool :=
  bool_decide (f ∈ files).

(** [open(path, 'w')]: creates the file unless it is there already. *)
Definition create (f : string) (files : list string) : list string :=
  if path_exists files f then files else files ++ [f].

Definition unlink (f : string) (files : list string) : list string :=
  filter (λ g, g ≠ f) files.

(** [mods_path.glob("*.zip")] *)
Definition glob_zip (files : list string) : list string :=
  filter (λ f, PyStr.endswith f ".zip" = true) files.

(** ** Desired-state resolver *)

Definition entry_get_name (entry : mod_entry) : string :=
  default "" (entry_name entry).

Definition entry_get_enabled (entry : mod_entry) : bool :=
  default false (entry_enabled entry).

Definition get_mods (ml : mod_list) : list mod_entry :=
  default [] (ml_mods ml).

Definition get_enabled_mods (ml : mod_list) : list string :=
  fold_left
    (λ mods entry,
       let mod_name := entry_get_name entry in
       if entry_get_enabled entry && bool_decide (mod_name ∉ BASE_GAME_MODS)
       then mods ++ [mod_name] else mods)
    (get_mods ml) [].

Definition get_enabled_mod_names (ml : mod_list) : gset string :=
  list_to_set
    (entry_get_name <$> filter (λ entry, entry_get_enabled entry = true) (get_mods ml)).

(** ** State writer *)

(** The document that [write_filtered_mod_list] dumps. *)
Definition write_filtered_mod_list (ml : mod_list) : mod_list :=
  let enabled_mods := filter (λ entry, entry_get_enabled entry = true) (get_mods ml) in
  {| ml_mods := Some enabled_mods |}.

(** ** Catalog client *)

Definition fetch_mod_info (net : network) (mod_name : string) : lookup :=
  api_get net (API_BASE_URL +:+ "/" +:+ mod_name +:+ "/full").

(** The value the call returned; there is none when it raised. *)
Definition answer_of (net : network) (mod_name : string) : option mod_info :=
  match fetch_mod_info net mod_name with
  | Returned mod_info => mod_info
  | Raised => None
  end.

Definition get_latest_release (info : mod_info) : option release :=
  let releases := default [] (info_releases info) in
  match releases with
  | [] => None
  | _ :: _ => last releases
  end.

(** ** Fetcher *)

Definition download_url_of (download_url username token : string) : string :=
  let separator := if PyStr.contains "?" download_url then "&" else "?" in
  DOWNLOAD_BASE_URL +:+ download_url +:+ separator
    +:+ "username=" +:+ username +:+ "&token=" +:+ token.

(** Returns the boolean of [download_mod] and the directory afterwards.
    Everything from the construction of the request on is inside a [try]
    that ends in [except Exception], so the function always returns. *)
Definition download_mod (net : network) (mod_name download_url filename
    username token : string) (files : list string) : bool * list string :=
  let full_url := download_url_of download_url username token in
  match download_get net full_url with
  | Complete => (true, create filename files)
  | FailedWhileWriting => (false, create filename files)
  | FailedBeforeOpen => (false, files)
  end.

(** ** Reconciliation engine *)

(** [if not x: ...] on a value that may be [None] or an empty [dict]:
    [truthy_or_none t o] is [Some x] exactly when the test lets [x]
    through. *)
Definition truthy_or_none {A} (t : A → bool) (o : option A) : option A :=
  match o with
  | Some x => if t x then Some x else None
  | None => None
  end.

(** The variables of [main] that the loop over the enabled mods updates,
    the directory listing, and the report written so far. *)
Record run_state := {
  success_count : nat;
  failed_count : nat;
  skipped_count : nat;
  latest_versions : gmap string string;
  files : list string;
  log : list event
}.

Definition initial_state (files0 : list string) : run_state :=
  {| success_count := 0; failed_count := 0; skipped_count := 0;
     latest_versions := ∅; files := files0; log := [] |}.

(** The three values the loop body reads from the selected release. *)
Definition release_version (latest : release) : string :=
  default "unknown" (latest !! "version").

Definition release_download_url (latest : release) : string :=
  default "" (latest !! "download_url").

Definition release_filename (mod_name : string) (latest : release) : string :=
  default (mod_name +:+ "_" +:+ release_version latest +:+ ".zip")
          (latest !! "file_name").

(** The release the loop body goes on with: the one [get_latest_release]
    returns, unless the lookup failed or raised, or either object is
    falsy. *)
Definition selected_release (net : network) (mod_name : string) : option release :=
  match truthy_or_none mod_info_truthy (answer_of net mod_name) with
  | None => None
  | Some info => truthy_or_none release_truthy (get_latest_release info)
  end.

(** The body of [for mod_name in enabled_mods] below the call of
    [fetch_mod_info], for the value [mod_info] the call returned. *)
Definition loop_body (net : network) (username token : string)
    (st : run_state) (mod_name : string) (mod_info : option mod_info)
    : run_state :=
  match truthy_or_none mod_info_truthy mod_info with
  | None =>
      {| success_count := success_count st;
         failed_count := failed_count st + 1;
         skipped_count := skipped_count st;
         latest_versions := latest_versions st;
         files := files st;
         log := log st ++ [LookupFailed mod_name] |}
  | Some info =>
      match truthy_or_none release_truthy (get_latest_release info) with
      | None =>
          {| success_count := success_count st;
             failed_count := failed_count st;
             skipped_count := skipped_count st + 1;
             latest_versions := latest_versions st;
             files := files st;
             log := log st ++ [NoReleases mod_name] |}
      | Some latest =>
          let version := release_version latest in
          let download_url := release_download_url latest in
          let filename := release_filename mod_name latest in
          let latest_versions' := <[mod_name := version]> (latest_versions st) in
          if path_exists (files st) filename then
            {| success_count := success_count st;
               failed_count := failed_count st;
               skipped_count := skipped_count st + 1;
               latest_versions := latest_versions';
               files := files st;
               log := log st ++ [AlreadyExists mod_name filename] |}
          else
            let '(ok, files') :=
              download_mod net mod_name download_url filename username token
                           (files st) in
            if ok then
              {| success_count := success_count st + 1;
                 failed_count := failed_count st;
                 skipped_count := skipped_count st;
                 latest_versions := latest_versions';
                 files := files';
                 log := log st ++ [Downloaded mod_name filename true] |}
            else
              {| success_count := success_count st;
                 failed_count := failed_count st + 1;
                 skipped_count := skipped_count st;
                 latest_versions := latest_versions';
                 files := files';
                 log := log st ++ [Downloaded mod_name filename false] |}
      end
  end.

(** One iteration of [for mod_name in enabled_mods] in [main]: [None]
    when the lookup raises.  The call is the first statement of the
    body and is outside any [try], so nothing has changed by then. *)
Definition process_mod (net : network) (username token : string)
    (st : run_state) (mod_name : string) : option run_state :=
  match fetch_mod_info net mod_name with
  | Raised => None
  | Returned mod_info =>
      Some (loop_body net username token st mod_name mod_info)
  end.

(** How the loop ends: after the last item, or at the item whose lookup
    raised, with the variables as they were before that item. *)
Inductive loop_result :=
| Completed (st : run_state)
| Interrupted (st : run_state) (mod_name : string).

Fixpoint process_mods (net : network) (username token : string)
    (enabled_mods : list string) (st : run_state) : loop_result :=
  match enabled_mods with
  | [] => Completed st
  | mod_name :: rest =>
      match process_mod net username token st mod_name with
      | None => Interrupted st mod_name
      | Some st' => process_mods net username token rest st'
      end
  end.

(** *** Garbage collection *)

Record gc_state := {
  gc_files : list string;
  deleted_count : nat;
  kept_count : nat;
  gc_log : list event
}.

(** [if latest_version and version != latest_version] on the result of
    [latest_versions.get(mod_name)]: [None] and [""] are both falsy. *)
Definition is_outdated (version : string) (latest_version : option string) : bool :=
  match latest_version with
  | Some lv => PyStr.truthy lv && bool_decide (version ≠ lv)
  | None => false
  end.

(** One iteration of [for zip_file in mods_path.glob("*.zip")]. *)
Definition cleanup_step (enabled_mod_names : gset string)
    (latest_versions : gmap string string) (st : gc_state)
    (zip_file : string) : gc_state :=
  match parse_mod_filename zip_file with
  | None => st
  | Some (mod_name, version) =>
      if bool_decide (mod_name ∉ enabled_mod_names) then
        {| gc_files := unlink zip_file (gc_files st);
           deleted_count := deleted_count st + 1;
           kept_count := kept_count st;
           gc_log := gc_log st ++ [DeletedDisabled zip_file] |}
      else
        let latest_version := latest_versions !! mod_name in
        if is_outdated version latest_version then
          {| gc_files := unlink zip_file (gc_files st);
             deleted_count := deleted_count st + 1;
             kept_count := kept_count st;
             gc_log := gc_log st
               ++ [DeletedOutdated zip_file (default "" latest_version)] |}
        else
          {| gc_files := gc_files st;
             deleted_count := deleted_count st;
             kept_count := kept_count st + 1;
             gc_log := gc_log st |}
  end.

(** The loop of [cleanup_old_mods] over a directory that exists. *)
Definition cleanup_files (enabled_mod_names : gset string)
    (latest_versions : gmap string string) (dir : list string) : gc_state :=
  fold_left (cleanup_step enabled_mod_names latest_versions) (glob_zip dir)
    {| gc_files := dir; deleted_count := 0; kept_count := 0; gc_log := [] |}.

(** [cleanup_old_mods]; the directory is [None] when [mods] does not
    exist, and the function then returns at once. *)
Definition cleanup_old_mods (enabled_mod_names : gset string)
    (latest_versions : gmap string string) (mods_dir : option (list string))
    : option gc_state :=
  match mods_dir with
  | None => None
  | Some dir => Some (cleanup_files enabled_mod_names latest_versions dir)
  end.

(** *** [main] *)

(** What a run that reached the end of [main] leaves behind. *)
Record report := {
  fetched : run_state;          (* after the loop over the enabled mods *)
  cleaned : gc_state;           (* after [cleanup_old_mods] *)
  written : mod_list;           (* the document dumped to mods/mod-list.json *)
  storage : list string         (* the [mods] directory at the end *)
}.

(** The part of [main] below the loop: garbage collection and the
    filtered document, from the variables [st] the loop ended with. *)
Definition finish (ml : mod_list) (st : run_state) : report :=
  let enabled_mod_names := get_enabled_mod_names ml in
  let gc :=
    default {| gc_files := files st; deleted_count := 0; kept_count := 0;
               gc_log := [] |}
      (cleanup_old_mods enabled_mod_names (latest_versions st) (Some (files st))) in
  {| fetched := st;
     cleaned := gc;
     written := write_filtered_mod_list ml;
     storage := create "mod-list.json" (gc_files gc) |}.

(** How a run that passed the two checks ends: with its report, or with
    the traceback of the exception a lookup raised; then neither garbage
    collection nor the filtered document was reached. *)
Inductive outcome :=
| Finished (r : report)
| Crashed (st : run_state) (mod_name : string).

(** The body of [main] below the two checks.  [mods_dir] is the directory
    before the run; [Path(MODS_DIR).mkdir(exist_ok=True)] makes it exist. *)
Definition reconcile (net : network) (username token : string)
    (ml : mod_list) (mods_dir : option (list string)) : outcome :=
  let dir0 := default [] mods_dir in
  let enabled_mods := get_enabled_mods ml in
  match process_mods net username token enabled_mods (initial_state dir0) with
  | Interrupted st mod_name => Crashed st mod_name
  | Completed st => Finished (finish ml st)
  end.

(** The credentials [main] ends up with: the two environment variables
    ([""] when unset), overridden by the first two arguments when
    [len(sys.argv) >= 3]. *)
Definition credentials (argv : list string) (env_username env_token : string)
    : string * string :=
  if 3 <=? length argv then (nth 1 argv "", nth 2 argv "")
  else (env_username, env_token).

(** [main]: the exit status of the process and, when the run got past
    the checks, how it ended.  [mod_list_file] is the parsed
    [mod-list.json] if the file exists.  Falling off the end of [main]
    is exit status 0; an exception that nothing catches ends the process
    with status 1. *)
Definition main (argv : list string) (env_username env_token : string)
    (mod_list_file : option mod_list) (mods_dir : option (list string))
    (net : network) : Z * option outcome :=
  let '(USERNAME, TOKEN) := credentials argv env_username env_token in
  if negb (PyStr.truthy USERNAME) || negb (PyStr.truthy TOKEN) then (1%Z, None)
  else
    match mod_list_file with
    | None => (1%Z, None)
    | Some ml =>
        match reconcile net USERNAME TOKEN ml mods_dir with
        | Crashed st mod_name => (1%Z, Some (Crashed st mod_name))
        | Finished r =>
            if 0 <? failed_count (fetched r) then (1%Z, Some (Finished r))
            else (0%Z, Some (Finished r))
        end
    end.

(** The events of the log that are deletions and downloads. *)
Definition is_download (e : event) : bool :=
  match e with Downloaded _ _ _ => true | _ => false end.

Definition is_failure (e : event) : bool :=
  match e with
  | LookupFailed _ | Downloaded _ _ false => true
  | _ => false
  end.

Definition event_mod (e : event) : option string :=
  match e with
  | LookupFailed n | NoReleases n | AlreadyExists n _ | Downloaded n _ _ => Some n
  | DeletedDisabled _ | DeletedOutdated _ _ => None
  end.

Definition deleted_file (e : event) : option string :=
  match e with
  | DeletedDisabled f | DeletedOutdated f _ => Some f
  | _ => None
  end.

Definition downloads (r : report) : list event :=
  filter (λ e, is_download e = true) (log (fetched r)).

Definition deletions (r : report) : list event := gc_log (cleaned r).

(** * Notions used in the statements *)

(** ** Runs in which every lookup returns *)

(** The iteration, the loop and the report of a run as they are when no
    lookup raises: [process_mod], [process_mods] and [reconcile] agree
    with them then (lemmas [process_mod_returned],
    [process_mods_completed], [reconcile_finished]). *)
Definition iteration (net : network) (username token : string)
    (st : run_state) (mod_name : string) : run_state :=
  loop_body net username token st mod_name (answer_of net mod_name).

Definition iterations (net : network) (username token : string)
    (enabled_mods : list string) (st : run_state) : run_state :=
  fold_left (iteration net username token) enabled_mods st.

Definition run_report (net : network) (username token : string)
    (ml : mod_list) (mods_dir : option (list string)) : report :=
  finish ml (iterations net username token (get_enabled_mods ml)
               (initial_state (default [] mods_dir))).

(** No lookup of the items [l] raises. *)
Definition lookups_return (net : network) (l : list string) : Prop :=
  ∀ n, n ∈ l → fetch_mod_info net n ≠ Raised.

(** The file name the convention gives to a name and a version. *)
Definition artifact_name (mod_name version : string) : string :=
  mod_name +:+ "_" +:+ version +:+ ".zip".

Section Verdict.
Variable enabled_mod_names : gset string.
Variable latest_versions : gmap string string.

(** What [cleanup_step] decides for one file name. *)
Definition gc_deletes (f : string) : bool :=
  match parse_mod_filename f with
  | None => false
  | Some (mod_name, version) =>
      bool_decide (mod_name ∉ enabled_mod_names)
      || is_outdated version (latest_versions !! mod_name)
  end.

(** The files [cleanup_step] counts as kept. *)
Definition gc_keeps (f : string) : bool :=
  match parse_mod_filename f with
  | None => false
  | Some (mod_name, version) =>
      bool_decide (mod_name ∈ enabled_mod_names)
      && negb (is_outdated version (latest_versions !! mod_name))
  end.

(** The line reported for a deleted file. *)
Definition gc_event (f : string) : event :=
  match parse_mod_filename f with
  | Some (mod_name, _) =>
      if bool_decide (mod_name ∉ enabled_mod_names) then DeletedDisabled f
      else DeletedOutdated f (default "" (latest_versions !! mod_name))
  | None => DeletedDisabled f
  end.

End Verdict.

(** The file a desired item is looked for under. *)
Definition target_file (net : network) (mod_name : string) : option string :=
  release_filename mod_name <$> selected_release net mod_name.

(** The counters count the lines of the log. *)
Definition well_counted (st : run_state) : Prop :=
  failed_count st = length (filter (λ e, is_failure e = true) (log st))
  ∧ success_count st + failed_count st + skipped_count st = length (log st).

(** An entry that asks for a fetch: enabled, and not a base game mod. *)
Definition wanted (entry : mod_entry) : Prop :=
  entry_get_enabled entry = true ∧ entry_get_name entry ∉ BASE_GAME_MODS.

Global Instance wanted_dec (entry : mod_entry) : Decision (wanted entry).
Proof. unfold wanted. apply _. Defined.

(** The lines of a completed download, and of a skipped item. *)
Definition is_fetched (e : event) : bool :=
  match e with Downloaded _ _ true => true | _ => false end.

Definition is_skipped (e : event) : bool :=
  match e with NoReleases _ | AlreadyExists _ _ => true | _ => false end.

(** The url [download_mod] requests for a release. *)
Definition transfer_url (username token : string) (r : release) : string :=
  download_url_of (release_download_url r) username token.

(** A run deletes [f] when one of its deletion lines names [f]. *)
Definition deletes_file (r : report) (f : string) : Prop :=
  ∃ e, e ∈ deletions r ∧ deleted_file e = Some f.

(** A run handles the item [n] when a line of the loop is about [n]:
    a lookup was made for it, and perhaps a download. *)
Definition handles_item (r : report) (n : string) : Prop :=
  ∃ e, e ∈ log (fetched r) ∧ event_mod e = Some n.

(** The entry with its ["enabled"] field, or its ["name"] field, set. *)
Definition set_enabled (b : bool) (entry : mod_entry) : mod_entry :=
  {| entry_name := entry_name entry; entry_enabled := Some b;
     entry_extra := entry_extra entry |}.

Definition set_name (name : string) (entry : mod_entry) : mod_entry :=
  {| entry_name := Some name; entry_enabled := entry_enabled entry;
     entry_extra := entry_extra entry |}.

(** The three operations that read a declaration. *)
Definition resolve (ml : mod_list) : list string * gset string * mod_list :=
  (get_enabled_mods ml, get_enabled_mod_names ml, write_filtered_mod_list ml).

(** The credentials are missing when either string is empty. *)
Definition credentials_missing (argv : list string) (env_username env_token : string)
    : Prop :=
  (credentials argv env_username env_token).1 = ""
  ∨ (credentials argv env_username env_token).2 = "".

(** ** The claims that fail, as the specification states them *)

(** C1 as the specification states it, over the artifacts that are in
    storage when garbage collection starts: retained exactly when the
    name is in the desired set and the map has no other version for it. *)
Definition retention_claim (net : network) (username token : string)
    (ml : mod_list) (mods_dir : option (list string)) : Prop :=
  ∀ R, reconcile net username token ml mods_dir = Finished R →
  ∀ f n v : string,
    f ∈ files (fetched R) →
    parse_mod_filename f = Some (n, v) →
    (f ∈ storage R ↔
     n ∈ get_enabled_mods ml
     ∧ (latest_versions (fetched R) !! n = None
        ∨ latest_versions (fetched R) !! n = Some v)).

(** C3 as the specification states it: no item of the exclusion set is
    handled, and no artifact of such a name is deleted, whatever the
    declaration says. *)
Definition exclusion_claim (net : network) (username token : string)
    (ml : mod_list) (mods_dir : option (list string)) : Prop :=
  ∀ R, reconcile net username token ml mods_dir = Finished R →
  ∀ n : string, n ∈ BASE_GAME_MODS →
    ¬ handles_item R n
    ∧ ∀ f v : string, parse_mod_filename f = Some (n, v) → ¬ deletes_file R f.

(** C4 as the specification states it: the second of two runs against
    the same catalog, started on the storage the first one left, starts
    no download and deletes nothing. *)
Definition idempotence_claim (net : network) (username token : string)
    (ml : mod_list) (mods_dir : option (list string)) : Prop :=
  ∀ R1 R2,
    reconcile net username token ml mods_dir = Finished R1 →
    reconcile net username token ml (Some (storage R1)) = Finished R2 →
    downloads R2 = [] ∧ deletions R2 = [].

(** ** Concrete inputs *)

Module Scenario.

(** A declared entry with both fields. *)
Definition entry (name : string) (enabled : bool) : mod_entry :=
  {| entry_name := Some name; entry_enabled := Some enabled; entry_extra := [] |}.

Definition declaration (entries : list mod_entry) : mod_list :=
  {| ml_mods := Some entries |}.

(** A catalog answer that carries the given releases. *)
Definition answer (releases : list release) : mod_info :=
  {| info_releases := Some releases; info_other_keys := ["name"; "title"] |}.

(** A catalog given by a table from mod names to answers.  A name that
    is not in the table gets an HTTP error, which [fetch_mod_info]
    catches; a url with a space in it makes [urlopen] raise InvalidURL,
    which it does not. *)
Definition catalog (table : list (string * mod_info)) (url : string) : lookup :=
  if PyStr.contains " " url then Raised
  else
    Returned
      (snd <$> List.find
                 (λ row, String.eqb url (API_BASE_URL +:+ "/" +:+ fst row +:+ "/full"))
                 table).

(** A network with that catalog on which every transfer does the same. *)
Definition network_of (table : list (string * mod_info)) (t : transfer) : network :=
  {| api_get := catalog table; download_get := λ _, t |}.

End Scenario.

(** * Evaluation on small inputs *)

(** Settles a closed decidable proposition by evaluating its decision. *)
Ltac compute_decision := apply (bool_decide_unpack _); vm_compute; exact I.

Example parse1 : parse_mod_filename "a_b_1.0.zip" = Some ("a_b", "1.0").
Proof. reflexivity. Qed.
Example parse2 : parse_mod_filename "_1.0.zip" = None.
Proof. reflexivity. Qed.
Example parse3 : parse_mod_filename "a_.zip" = None.
Proof. reflexivity. Qed.
Example parse4 : parse_mod_filename "a_1.0.tar" = None.
Proof. reflexivity. Qed.
Example parse5 : parse_mod_filename ".zip" = None.
Proof. reflexivity. Qed.
Example base_in : bool_decide ("base" ∈ BASE_GAME_MODS) = true.
Proof. vm_compute. reflexivity. Qed.
Example a_notin : bool_decide ("a" ∈ BASE_GAME_MODS) = false.
Proof. vm_compute. reflexivity. Qed.

(** * Facts about the string primitives *)

Module PyStrFacts.
Import PyStr.

Lemma app_nil_l (s : string) : "" +:+ s = s.
Proof. reflexivity. Qed.

Lemma app_cons (a : ascii) (s t : string) :
  String a s +:+ t = String a (s +:+ t).
Proof. reflexivity. Qed.

Lemma app_nil_r (s : string) : s +:+ "" = s.
Proof. induction s as [|a s IH]; [done|]. by rewrite app_cons, IH. Qed.

Lemma app_assoc (s t u : string) : (s +:+ t) +:+ u = s +:+ t +:+ u.
Proof. induction s as [|a s IH]; [done|]. by rewrite !app_cons, IH. Qed.

Lemma length_app (s t : string) :
  String.length (s +:+ t) = String.length s + String.length t.
Proof. induction s as [|a s IH]; [done|]. rewrite app_cons. simpl. by rewrite IH. Qed.

Lemma take_app_length (s t : string) : take (String.length s) (s +:+ t) = s.
Proof.
  induction s as [|a s IH]; [by destruct t|].
  rewrite app_cons. simpl. by rewrite IH.
Qed.

Lemma drop_app_length (s t : string) : drop (String.length s) (s +:+ t) = t.
Proof. induction s as [|a s IH]; [done|]. rewrite app_cons. simpl. exact IH. Qed.

Lemma take_drop (k : nat) (s : string) : take k s +:+ drop k s = s.
Proof.
  revert s. induction k as [|k IH]; intros [|a s]; try done.
  simpl. by rewrite app_cons, IH.
Qed.

Lemma length_take (k : nat) (s : string) :
  k ≤ String.length s → String.length (take k s) = k.
Proof.
  revert s. induction k as [|k IH]; intros [|a s] Hk; simpl in *; try done; try lia.
  rewrite IH; lia.
Qed.

Lemma truthy_true (s : string) : truthy s = true ↔ s ≠ "".
Proof. destruct s; simpl; split; congruence. Qed.

(** [endswith] holds exactly of the strings that are some prefix
    followed by the suffix. *)
Lemma endswith_app (p suffix : string) : endswith (p +:+ suffix) suffix = true.
Proof.
  unfold endswith. rewrite length_app.
  replace (String.length p + String.length suffix - String.length suffix)
    with (String.length p) by lia.
  rewrite drop_app_length, String.eqb_refl, andb_true_r.
  apply Nat.leb_le. lia.
Qed.

Lemma endswith_inv (s suffix : string) :
  endswith s suffix = true →
  s = take (String.length s - String.length suffix) s +:+ suffix.
Proof.
  unfold endswith. intros [_ Heq%String.eqb_eq]%andb_true_iff.
  set (k := String.length s - String.length suffix) in *.
  rewrite <-Heq. by rewrite take_drop.
Qed.

Lemma endswith_iff (s suffix : string) :
  endswith s suffix = true ↔ ∃ p, s = p +:+ suffix.
Proof.
  split.
  - intros H. eexists. by apply endswith_inv.
  - intros [p ->]. apply endswith_app.
Qed.

(** The slices the parser takes, on strings of a known shape. *)
Lemma slice_to_neg_app (p suffix : string) :
  suffix ≠ "" →
  slice_to (p +:+ suffix) (- Z.of_nat (String.length suffix)) = p.
Proof.
  intros Hne. unfold slice_to, clip. rewrite length_app.
  destruct suffix as [|a suffix]; [done|]. simpl String.length.
  destruct (Z.ltb_spec (- Z.of_nat (S (String.length suffix))) 0); [|lia].
  replace (Z.to_nat _) with (String.length p) by lia.
  apply take_app_length.
Qed.

Lemma slice_to_length_app (s t : string) :
  slice_to (s +:+ t) (Z.of_nat (String.length s)) = s.
Proof.
  unfold slice_to, clip. rewrite length_app.
  destruct (Z.ltb_spec (Z.of_nat (String.length s)) 0); [lia|].
  replace (Z.to_nat _) with (String.length s) by lia.
  apply take_app_length.
Qed.

Lemma slice_from_length_app (s t : string) :
  slice_from (s +:+ t) (Z.of_nat (String.length s)) = t.
Proof.
  unfold slice_from, clip. rewrite length_app.
  destruct (Z.ltb_spec (Z.of_nat (String.length s)) 0); [lia|].
  replace (Z.to_nat _) with (String.length s) by lia.
  apply drop_app_length.
Qed.

(** [rfind_from]: without an occurrence the accumulator comes back;
    with one, the index of the last occurrence. *)
Lemma rfind_from_absent (c : ascii) (s : string) (i acc : Z) :
  contains c s = false → rfind_from i acc c s = acc.
Proof.
  revert i acc. induction s as [|a s IH]; intros i acc Hc; [done|].
  simpl in *. apply orb_false_iff in Hc as [-> Hc]. by apply IH.
Qed.

Lemma rfind_from_last (c : ascii) (s t : string) (i acc : Z) :
  contains c t = false →
  rfind_from i acc c (s +:+ String c t) = (i + Z.of_nat (String.length s))%Z.
Proof.
  intros Ht. revert i acc. induction s as [|a s IH]; intros i acc.
  - rewrite app_nil_l. simpl. rewrite Ascii.eqb_refl.
    rewrite rfind_from_absent by done. lia.
  - rewrite app_cons. simpl rfind_from. rewrite IH. simpl String.length. lia.
Qed.

(** Every string either lacks [c] or splits at its last [c]. *)
Lemma last_occurrence (c : ascii) (s : string) :
  contains c s = false ∨
  ∃ p t, s = p +:+ String c t ∧ contains c t = false.
Proof.
  induction s as [|a s [IH|(p & t & -> & Ht)]].
  - by left.
  - destruct (Ascii.eqb a c) eqn:Hac.
    + right. apply Ascii.eqb_eq in Hac as ->. by exists "", s.
    + left. simpl. by rewrite Hac, IH.
  - right. exists (String a p), t. by rewrite app_cons.
Qed.

Lemma rfind_absent (c : ascii) (s : string) :
  contains c s = false → rfind s c = (-1)%Z.
Proof. apply rfind_from_absent. Qed.

Lemma rfind_last (c : ascii) (p t : string) :
  contains c t = false →
  rfind (p +:+ String c t) c = Z.of_nat (String.length p).
Proof. intros Ht. unfold rfind. by rewrite rfind_from_last. Qed.

Lemma rfind_minus_one (c : ascii) (s : string) :
  rfind s c = (-1)%Z ↔ contains c s = false.
Proof.
  split; [|apply rfind_absent].
  destruct (last_occurrence c s) as [H|(p & t & -> & Ht)]; [done|].
  rewrite rfind_last by done. lia.
Qed.

Lemma contains_app (c : ascii) (s t : string) :
  contains c (s +:+ t) = contains c s || contains c t.
Proof.
  induction s as [|a s IH]; [done|].
  rewrite app_cons. simpl. by rewrite IH, orb_assoc.
Qed.

End PyStrFacts.

(** * The naming convention *)

Section Parsing.
Import PyStr PyStrFacts.

Lemma parse_mod_filename_not_zip (f : string) :
  endswith f ".zip" = false → parse_mod_filename f = None.
Proof. intros H. unfold parse_mod_filename. by rewrite H. Qed.

(** Parsing [base.zip] looks at [base] only. *)
Lemma parse_mod_filename_base (base : string) :
  parse_mod_filename (base +:+ ".zip") =
    let last_underscore := rfind base "_" in
    if (last_underscore =? -1)%Z then None
    else
      let mod_name := slice_to base last_underscore in
      let version := slice_from base (last_underscore + 1) in
      if negb (truthy mod_name) || negb (truthy version) then None
      else Some (mod_name, version).
Proof.
  unfold parse_mod_filename. rewrite endswith_app. simpl negb. cbv iota.
  assert (slice_to (base +:+ ".zip") (-4) = base) as ->; [|done].
  by apply (slice_to_neg_app base ".zip").
Qed.

Lemma parse_mod_filename_no_underscore (base : string) :
  contains "_" base = false → parse_mod_filename (base +:+ ".zip") = None.
Proof.
  intros H. rewrite parse_mod_filename_base. cbv zeta.
  by rewrite rfind_absent.
Qed.

(** Parsing a base that splits at its last underscore. *)
Lemma parse_mod_filename_split (p t : string) :
  contains "_" t = false →
  parse_mod_filename ((p +:+ String "_" t) +:+ ".zip") =
    if negb (truthy p) || negb (truthy t) then None else Some (p, t).
Proof.
  intros Ht. rewrite parse_mod_filename_base. cbv zeta.
  rewrite rfind_last by done.
  destruct (Z.eqb_spec (Z.of_nat (String.length p)) (-1)) as [|_]; [lia|].
  rewrite slice_to_length_app.
  replace (p +:+ String "_" t) with ((p +:+ "_") +:+ t)
    by (by rewrite app_assoc).
  replace (Z.of_nat (String.length p) + 1)%Z
    with (Z.of_nat (String.length (p +:+ "_")))
    by (rewrite length_app; simpl; lia).
  by rewrite slice_from_length_app.
Qed.

Lemma parse_mod_filename_artifact (n v : string) :
  n ≠ "" → v ≠ "" → contains "_" v = false →
  parse_mod_filename (artifact_name n v) = Some (n, v).
Proof.
  intros Hn Hv Hu. unfold artifact_name.
  replace (n +:+ "_" +:+ v +:+ ".zip") with ((n +:+ String "_" v) +:+ ".zip")
    by (by rewrite !app_assoc).
  rewrite parse_mod_filename_split by done.
  apply truthy_true in Hn, Hv. by rewrite Hn, Hv.
Qed.

Lemma parse_mod_filename_Some (f n v : string) :
  parse_mod_filename f = Some (n, v) →
  f = artifact_name n v ∧ n ≠ "" ∧ v ≠ "" ∧ contains "_" v = false.
Proof.
  intros H. destruct (endswith f ".zip") eqn:Hz;
    [|by rewrite parse_mod_filename_not_zip in H].
  apply endswith_iff in Hz as [base ->].
  destruct (last_occurrence "_" base) as [Hno|(p & t & -> & Ht)];
    [by rewrite parse_mod_filename_no_underscore in H|].
  rewrite parse_mod_filename_split in H by done.
  destruct (truthy p) eqn:Hp, (truthy t) eqn:Hv; simplify_eq/=.
  apply truthy_true in Hp, Hv. repeat split; try done.
  unfold artifact_name. by rewrite !app_assoc.
Qed.

Lemma parse_mod_filename_zip (f n v : string) :
  parse_mod_filename f = Some (n, v) → endswith f ".zip" = true.
Proof.
  intros H. destruct (endswith f ".zip") eqn:Hz; [done|].
  by rewrite parse_mod_filename_not_zip in H.
Qed.

End Parsing.

(** * Garbage collection, file by file *)

Lemma filter_all {A} (P : A → Prop) `{!∀ x, Decision (P x)} (l : list A) :
  (∀ x, x ∈ l → P x) → filter P l = l.
Proof.
  induction l as [|x l IH]; intros Hall; [done|].
  rewrite filter_cons_True by (apply Hall; left).
  f_equal. apply IH. intros y Hy. apply Hall. by right.
Qed.

Lemma filter_none {A} (P : A → Prop) `{!∀ x, Decision (P x)} (l : list A) :
  (∀ x, x ∈ l → ¬ P x) → filter P l = [].
Proof.
  induction l as [|x l IH]; intros Hall; [done|].
  rewrite filter_cons_False by (apply Hall; left).
  apply IH. intros y Hy. apply Hall. by right.
Qed.

Section Cleanup.
Variable enabled_mod_names : gset string.
Variable latest_versions : gmap string string.

Let step := cleanup_step enabled_mod_names latest_versions.
Local Abbreviation deletes := (gc_deletes enabled_mod_names latest_versions).
Local Abbreviation keeps := (gc_keeps enabled_mod_names latest_versions).
Local Abbreviation event_of := (gc_event enabled_mod_names latest_versions).

Lemma cleanup_step_deletes (st : gc_state) (f : string) :
  deletes f = true →
  step st f =
    {| gc_files := unlink f (gc_files st);
       deleted_count := deleted_count st + 1;
       kept_count := kept_count st;
       gc_log := gc_log st ++ [event_of f] |}.
Proof.
  unfold gc_deletes, gc_event, step, cleanup_step.
  destruct (parse_mod_filename f) as [[n v]|]; [|done].
  case_bool_decide; [done|]. simpl. by intros ->.
Qed.

Lemma cleanup_step_keeps (st : gc_state) (f : string) :
  keeps f = true →
  step st f =
    {| gc_files := gc_files st;
       deleted_count := deleted_count st;
       kept_count := kept_count st + 1;
       gc_log := gc_log st |}.
Proof.
  unfold gc_keeps, step, cleanup_step.
  destruct (parse_mod_filename f) as [[n v]|]; [|done].
  intros [Hin Hout%negb_true_iff]%andb_true_iff.
  apply bool_decide_eq_true in Hin.
  rewrite bool_decide_eq_false_2 by (by intros []). by rewrite Hout.
Qed.

Lemma cleanup_step_ignores (st : gc_state) (f : string) :
  parse_mod_filename f = None → step st f = st.
Proof. unfold step, cleanup_step. by intros ->. Qed.

(** Each file name is in exactly one of the three cases. *)
Lemma gc_cases (f : string) :
  (parse_mod_filename f = None ∧ deletes f = false ∧ keeps f = false)
  ∨ (deletes f = true ∧ keeps f = false)
  ∨ (deletes f = false ∧ keeps f = true).
Proof.
  unfold gc_deletes, gc_keeps.
  destruct (parse_mod_filename f) as [[n v]|]; [|by left].
  right. case_bool_decide as Hin.
  - rewrite bool_decide_eq_false_2 by done. by left.
  - rewrite bool_decide_eq_true_2
      by (by destruct (decide (n ∈ enabled_mod_names))).
    destruct (is_outdated _ _); simpl; auto.
Qed.

Lemma gc_deletes_zip (f : string) :
  deletes f = true → PyStr.endswith f ".zip" = true.
Proof.
  unfold gc_deletes. destruct (parse_mod_filename f) as [[n v]|] eqn:Hp; [|done].
  intros _. by eapply parse_mod_filename_zip.
Qed.

Lemma gc_keeps_zip (f : string) :
  keeps f = true → PyStr.endswith f ".zip" = true.
Proof.
  unfold gc_keeps. destruct (parse_mod_filename f) as [[n v]|] eqn:Hp; [|done].
  intros _. by eapply parse_mod_filename_zip.
Qed.

(** The loop over any listing [l], from any state. *)
Lemma cleanup_fold (l : list string) (st : gc_state) :
  fold_left step l st =
    {| gc_files :=
         filter (λ g, ¬ (g ∈ l ∧ deletes g = true)) (gc_files st);
       deleted_count :=
         deleted_count st + length (filter (λ g, deletes g = true) l);
       kept_count :=
         kept_count st + length (filter (λ g, keeps g = true) l);
       gc_log :=
         gc_log st ++ (event_of <$> filter (λ g, deletes g = true) l) |}.
Proof.
  revert st. induction l as [|f l IH]; intros st.
  - simpl. destruct st as [fs d k lg]. simpl. f_equal.
    + symmetry. apply filter_all. intros g _ [Hg _]. by apply not_elem_of_nil in Hg.
    + lia.
    + lia.
    + by rewrite app_nil_r.
  - simpl fold_left. rewrite IH.
    destruct (gc_cases f) as [(Hp & Hd & Hk)|[(Hd & Hk)|(Hd & Hk)]].
    + fold step. rewrite cleanup_step_ignores by done.
      rewrite !filter_cons, Hd, Hk.
      rewrite !decide_False by done. f_equal.
      apply list_filter_iff. intros g. rewrite elem_of_cons.
      split; intros H [Hg Hgd]; apply H; split; auto.
      destruct Hg as [->|]; [congruence|done].
    + fold step. rewrite cleanup_step_deletes by done. simpl.
      rewrite !filter_cons, Hd, Hk.
      rewrite decide_True, decide_False by done. simpl. f_equal.
      * unfold unlink. rewrite list_filter_filter.
        apply list_filter_iff. intros g. rewrite elem_of_cons. split.
        -- intros [Hg Hne] [[->|Hin] Hgd]; [done|]. by apply Hg.
        -- intros H. split; [intros [? ?]; apply H; auto|].
           intros ->. apply H. auto.
      * lia.
      * by rewrite <-app_assoc.
    + fold step. rewrite cleanup_step_keeps by done. simpl.
      rewrite !filter_cons, Hd, Hk.
      rewrite decide_False, decide_True by done. simpl. f_equal.
      * apply list_filter_iff. intros g. rewrite elem_of_cons.
        split; intros H [Hg Hgd]; apply H; split; auto.
        destruct Hg as [->|]; [congruence|done].
      * lia.
Qed.

End Cleanup.

Lemma filter_ext_in {A} (P Q : A → Prop) `{!∀ x, Decision (P x)}
    `{!∀ x, Decision (Q x)} (l : list A) :
  (∀ x, x ∈ l → P x ↔ Q x) → filter P l = filter Q l.
Proof.
  induction l as [|x l IH]; intros Hall; [done|].
  rewrite !filter_cons.
  rewrite IH by (intros y Hy; apply Hall; by right).
  pose proof (Hall x (list_elem_of_here _ _)) as Hx.
  destruct (decide (P x)) as [HP|HP], (decide (Q x)) as [HQ|HQ]; tauto.
Qed.

Section CleanupFiles.
Variable enabled_mod_names : gset string.
Variable latest_versions : gmap string string.

Let deletes := gc_deletes enabled_mod_names latest_versions.
Let keeps := gc_keeps enabled_mod_names latest_versions.

(** [cleanup_old_mods] on a directory, in closed form: what is left,
    the two counters, and the deletions reported, in listing order. *)
Lemma cleanup_files_spec (dir : list string) :
  cleanup_files enabled_mod_names latest_versions dir =
    {| gc_files := filter (λ g, deletes g = false) dir;
       deleted_count := length (filter (λ g, deletes g = true) dir);
       kept_count := length (filter (λ g, keeps g = true) dir);
       gc_log := gc_event enabled_mod_names latest_versions
                   <$> filter (λ g, deletes g = true) dir |}.
Proof.
  unfold cleanup_files. rewrite cleanup_fold. simpl. unfold glob_zip.
  rewrite !list_filter_filter.
  assert (filter (λ g, gc_deletes enabled_mod_names latest_versions g = true
                       ∧ PyStr.endswith g ".zip" = true) dir
          = filter (λ g, deletes g = true) dir) as ->.
  { apply list_filter_iff. intros g. split; [by intros []|].
    intros H. split; [done|]. by eapply gc_deletes_zip. }
  assert (filter (λ g, gc_keeps enabled_mod_names latest_versions g = true
                       ∧ PyStr.endswith g ".zip" = true) dir
          = filter (λ g, keeps g = true) dir) as ->.
  { apply list_filter_iff. intros g. split; [by intros []|].
    intros H. split; [done|]. by eapply gc_keeps_zip. }
  f_equal. apply filter_ext_in. intros g Hg.
  rewrite list_elem_of_filter. fold deletes. split.
  - intros H. destruct (deletes g) eqn:Hd; [|done].
    exfalso. apply H. split; [|done]. split; [|done]. by eapply gc_deletes_zip.
  - intros Hd [_ Hd']. congruence.
Qed.

Lemma cleanup_files_elem (dir : list string) (f : string) :
  f ∈ gc_files (cleanup_files enabled_mod_names latest_versions dir)
  ↔ f ∈ dir ∧ deletes f = false.
Proof.
  rewrite cleanup_files_spec. simpl. rewrite list_elem_of_filter. tauto.
Qed.

(** A directory in which nothing is to be deleted is left as it is. *)
Lemma cleanup_files_fixpoint (dir : list string) :
  (∀ f, f ∈ dir → deletes f = false) →
  cleanup_files enabled_mod_names latest_versions dir =
    {| gc_files := dir; deleted_count := 0;
       kept_count := length (filter (λ g, keeps g = true) dir);
       gc_log := [] |}.
Proof.
  intros Hall. rewrite cleanup_files_spec.
  rewrite filter_all by done.
  rewrite (filter_none (λ g, deletes g = true)); [done|].
  intros f Hf. rewrite Hall by done. done.
Qed.

End CleanupFiles.

(** * The loop over the enabled mods *)

Lemma elem_of_create (f g : string) (l : list string) :
  f ∈ create g l ↔ f ∈ l ∨ f = g.
Proof.
  unfold create, path_exists. case_bool_decide as Hg.
  - split; [auto|]. by intros [?| ->].
  - rewrite elem_of_app, list_elem_of_singleton. tauto.
Qed.

Lemma create_present (g : string) (l : list string) : g ∈ l → create g l = l.
Proof. intros H. unfold create, path_exists. by rewrite bool_decide_eq_true_2. Qed.

(** ** The loop when every lookup returns

    The lemmas on [process_mod] and [process_mods] up to the section
    _Lookups that raise_ are stated on [iteration] and [iterations], the
    iteration and the loop of a run in which no lookup raises;
    [process_mod_Some] and [process_mods_completed] carry them over. *)

Section Loop.
Variable net : network.
Variables username token : string.

Let step := iteration net username token.
Let loop := iterations net username token.

Lemma download_mod_files (n url f : string) (l : list string) :
  (download_mod net n url f username token l).2 = l
  ∨ (download_mod net n url f username token l).2 = create f l.
Proof. unfold download_mod. destruct (download_get net _); simpl; auto. Qed.

Lemma download_mod_ok (n url f : string) (l : list string) :
  (download_mod net n url f username token l).1 = true →
  (download_mod net n url f username token l).2 = create f l.
Proof. unfold download_mod. by destruct (download_get net _). Qed.

(** The map entry is written whenever a release is selected, before
    storage is looked at. *)
Lemma process_mod_latest (st : run_state) (n : string) :
  latest_versions (step st n) =
    match selected_release net n with
    | Some r => <[n := release_version r]> (latest_versions st)
    | None => latest_versions st
    end.
Proof.
  unfold step, iteration, loop_body, selected_release.
  destruct (truthy_or_none mod_info_truthy _) as [info|]; [|done].
  destruct (truthy_or_none release_truthy _) as [r|]; [|done].
  destruct (path_exists _ _); [done|].
  by destruct (download_mod _ _ _ _ _ _ _) as [[] ?].
Qed.

Lemma process_mod_files_mono (st : run_state) (n f : string) :
  f ∈ files st → f ∈ files (step st n).
Proof.
  intros Hf. unfold step, iteration, loop_body.
  destruct (truthy_or_none mod_info_truthy _) as [info|]; [|done].
  destruct (truthy_or_none release_truthy _) as [r|]; [|done].
  destruct (path_exists _ _); [done|].
  pose proof (download_mod_files n (release_download_url r)
                (release_filename n r) (files st)) as Hd.
  destruct (download_mod _ _ _ _ _ _ _) as [[] l]; simpl in *;
    destruct Hd as [->| ->]; try done; apply elem_of_create; auto.
Qed.

Lemma process_mod_files_new (st : run_state) (n f : string) :
  f ∈ files (step st n) → f ∈ files st ∨ target_file net n = Some f.
Proof.
  unfold step, iteration, loop_body, target_file, selected_release.
  destruct (truthy_or_none mod_info_truthy _) as [info|]; [|auto].
  destruct (truthy_or_none release_truthy _) as [r|]; [|auto].
  destruct (path_exists _ _); [auto|].
  pose proof (download_mod_files n (release_download_url r)
                (release_filename n r) (files st)) as Hd.
  destruct (download_mod _ _ _ _ _ _ _) as [[] l]; simpl in *;
    destruct Hd as [->| ->]; auto;
    intros [?| ->]%elem_of_create; auto.
Qed.

(** A selected release whose target file is there: the item is skipped,
    storage is not touched and nothing is downloaded. *)
Lemma process_mod_exists (st : run_state) (n : string) (r : release) :
  selected_release net n = Some r →
  release_filename n r ∈ files st →
  step st n =
    {| success_count := success_count st;
       failed_count := failed_count st;
       skipped_count := skipped_count st + 1;
       latest_versions := <[n := release_version r]> (latest_versions st);
       files := files st;
       log := log st ++ [AlreadyExists n (release_filename n r)] |}.
Proof.
  unfold step, iteration, loop_body, selected_release. intros Hsel Hin.
  destruct (truthy_or_none mod_info_truthy _) as [info|]; [|done].
  rewrite Hsel. unfold path_exists. by rewrite bool_decide_eq_true_2.
Qed.

(** No release selected: nothing but a counter and the log changes. *)
Lemma process_mod_none (st : run_state) (n : string) :
  selected_release net n = None →
  latest_versions (step st n) = latest_versions st
  ∧ files (step st n) = files st
  ∧ success_count (step st n) = success_count st
  ∧ (log (step st n) = log st ++ [LookupFailed n]
     ∧ failed_count (step st n) = failed_count st + 1
     ∧ skipped_count (step st n) = skipped_count st
     ∨ log (step st n) = log st ++ [NoReleases n]
       ∧ failed_count (step st n) = failed_count st
       ∧ skipped_count (step st n) = skipped_count st + 1).
Proof.
  unfold step, iteration, loop_body, selected_release. intros Hsel.
  destruct (truthy_or_none mod_info_truthy _) as [info|]; [|by auto 10].
  rewrite Hsel. simpl. auto 10.
Qed.

(** Every iteration reports exactly one line, about its own item, and
    counts it in exactly one counter. *)
Lemma process_mod_log (st : run_state) (n : string) :
  ∃ e, log (step st n) = log st ++ [e]
       ∧ event_mod e = Some n
       ∧ failed_count (step st n)
         = failed_count st + (if is_failure e then 1 else 0)
       ∧ success_count (step st n) + failed_count (step st n)
           + skipped_count (step st n)
         = success_count st + failed_count st + skipped_count st + 1
       ∧ (is_download e = true →
          ∃ r, selected_release net n = Some r
               ∧ release_filename n r ∉ files st).
Proof.
  unfold step, iteration, loop_body, selected_release.
  destruct (truthy_or_none mod_info_truthy _) as [info|].
  2:{ eexists. repeat split; simpl; try done; lia. }
  destruct (truthy_or_none release_truthy _) as [r|].
  2:{ eexists. repeat split; simpl; try done; lia. }
  unfold path_exists. case_bool_decide as Hex.
  { eexists. repeat split; simpl; try done; lia. }
  destruct (download_mod _ _ _ _ _ _ _) as [[] l];
    eexists; (repeat split; simpl; try done; try lia); eauto.
Qed.

End Loop.

Lemma filter_snoc_False {A} (P : A → Prop) `{!∀ x, Decision (P x)}
    (l : list A) (x : A) :
  ¬ P x → filter P (l ++ [x]) = filter P l.
Proof.
  intros Hx. rewrite filter_app, filter_cons_False by done.
  by rewrite filter_nil, app_nil_r.
Qed.

Section Run.
Variable net : network.
Variables username token : string.

Local Abbreviation step := (iteration net username token).
Local Abbreviation loop := (iterations net username token).

Lemma process_mods_cons (n : string) (l : list string) (st : run_state) :
  loop (n :: l) st = loop l (step st n).
Proof. reflexivity. Qed.

Lemma process_mods_snoc (n : string) (l : list string) (st : run_state) :
  loop (l ++ [n]) st = step (loop l st) n.
Proof. unfold iterations. by rewrite fold_left_app. Qed.

(** What a map lookup gives after the loop. *)
Lemma process_mods_latest (l : list string) (st : run_state) (n : string) :
  latest_versions (loop l st) !! n =
    match selected_release net n with
    | Some r => if bool_decide (n ∈ l) then Some (release_version r)
                else latest_versions st !! n
    | None => latest_versions st !! n
    end.
Proof.
  revert st. induction l as [|m l IH]; intros st.
  { simpl. by destruct (selected_release net n). }
  rewrite process_mods_cons, IH.
  rewrite process_mod_latest.
  destruct (decide (n = m)) as [->|Hne].
  - destruct (selected_release net m) as [r|]; [|done].
    rewrite lookup_insert_eq.
    rewrite (bool_decide_eq_true_2 (m ∈ m :: l)) by left.
    by case_bool_decide.
  - assert (bool_decide (n ∈ m :: l) = bool_decide (n ∈ l)) as ->.
    { apply bool_decide_ext. rewrite elem_of_cons. tauto. }
    destruct (selected_release net n) as [r|];
      destruct (selected_release net m) as [r'|];
      by rewrite ?lookup_insert_ne.
Qed.

(** The map does not depend on what is in storage. *)
Lemma process_mods_latest_initial (l : list string) (dir dir' : list string) :
  latest_versions (loop l (initial_state dir))
  = latest_versions (loop l (initial_state dir')).
Proof. apply map_eq. intros n. by rewrite !process_mods_latest. Qed.

Lemma process_mods_files_mono (l : list string) (st : run_state) (f : string) :
  f ∈ files st → f ∈ files (loop l st).
Proof.
  revert st. induction l as [|m l IH]; intros st Hf; [done|].
  rewrite process_mods_cons. apply IH. by apply process_mod_files_mono.
Qed.

Lemma process_mods_files_new (l : list string) (st : run_state) (f : string) :
  f ∈ files (loop l st) →
  f ∈ files st ∨ ∃ n, n ∈ l ∧ target_file net n = Some f.
Proof.
  revert st. induction l as [|m l IH]; intros st Hf; [by left|].
  rewrite process_mods_cons in Hf. apply IH in Hf as [Hf|(n & Hn & Ht)].
  - apply process_mod_files_new in Hf as [Hf|Ht]; [by left|].
    right. exists m. split; [left|done].
  - right. exists n. split; [by right|done].
Qed.

(** One line per item, in declaration order, whatever went wrong. *)
Lemma process_mods_items (l : list string) (st : run_state) :
  omap event_mod (log (loop l st)) = omap event_mod (log st) ++ l.
Proof.
  revert st. induction l as [|m l IH]; intros st.
  { simpl. by rewrite app_nil_r. }
  rewrite process_mods_cons, IH.
  destruct (process_mod_log net username token st m) as (e & -> & He & _).
  rewrite omap_app. simpl. rewrite He. simpl. by rewrite <-app_assoc.
Qed.

Lemma process_mod_well_counted (st : run_state) (n : string) :
  well_counted st → well_counted (step st n).
Proof.
  intros [Hf Ht].
  destruct (process_mod_log net username token st n)
    as (e & Hlog & _ & Hfail & Htot & _).
  unfold well_counted. split.
  - rewrite Hfail, Hlog, filter_app, length_app, filter_cons, filter_nil.
    destruct (is_failure e); repeat case_decide; try done; simpl; lia.
  - rewrite Htot, Hlog, length_app. simpl. lia.
Qed.

Lemma process_mods_well_counted (l : list string) (st : run_state) :
  well_counted st → well_counted (loop l st).
Proof.
  revert st. induction l as [|m l IH]; intros st H; [done|].
  rewrite process_mods_cons. by apply IH, process_mod_well_counted.
Qed.

(** A download is only ever started for a selected release. *)
Lemma process_mods_downloaded (l : list string) (st : run_state)
    (n f : string) (ok : bool) :
  Downloaded n f ok ∈ log (loop l st) →
  Downloaded n f ok ∈ log st ∨ (n ∈ l ∧ is_Some (selected_release net n)).
Proof.
  revert st. induction l as [|m l IH]; intros st Hin; [by left|].
  rewrite process_mods_cons in Hin. apply IH in Hin as [H|[Hn Hs]].
  - destruct (process_mod_log net username token st m)
      as (e & Hlog & He & _ & _ & Hd).
    rewrite Hlog in H.
    apply elem_of_app in H as [H|H]; [by left|].
    apply list_elem_of_singleton in H as <-. simpl in He. simplify_eq.
    destruct (Hd eq_refl) as (r & Hr & _).
    right. split; [left|]. by rewrite Hr.
  - right. split; [by right|done].
Qed.

(** When every target file is there, the loop downloads nothing and
    leaves storage alone. *)
Lemma process_mods_all_exist (l : list string) (st : run_state) :
  (∀ n f, n ∈ l → target_file net n = Some f → f ∈ files st) →
  files (loop l st) = files st
  ∧ filter (λ e, is_download e = true) (log (loop l st))
    = filter (λ e, is_download e = true) (log st)
  ∧ success_count (loop l st) = success_count st
  ∧ failed_count (loop l st)
    = failed_count st + length (filter (λ n, selected_release net n = None
        ∧ truthy_or_none mod_info_truthy (answer_of net n) = None) l).
Proof.
  revert st. induction l as [|m l IH]; intros st Hall.
  { simpl. repeat split; lia. }
  rewrite process_mods_cons. rewrite filter_cons.
  assert (files (step st m) = files st
          ∧ filter (λ e, is_download e = true) (log (step st m))
            = filter (λ e, is_download e = true) (log st)
          ∧ success_count (step st m) = success_count st
          ∧ failed_count (step st m) = failed_count st +
              length (if decide (selected_release net m = None
                   ∧ truthy_or_none mod_info_truthy (answer_of net m) = None)
                 then [m] else [])) as (Hf & Hl & Hs & Hc).
  { destruct (selected_release net m) as [r|] eqn:Hsel.
    - rewrite (process_mod_exists net username token st m r Hsel).
      + cbn [files log success_count failed_count].
        rewrite filter_snoc_False by done.
        rewrite decide_False by (by intros []). simpl. repeat split; lia.
      + apply (Hall m); [left|]. unfold target_file. by rewrite Hsel.
    - unfold iteration, loop_body. unfold selected_release in Hsel.
      destruct (truthy_or_none mod_info_truthy _) as [info|].
      + rewrite Hsel. cbn [files log success_count failed_count].
        rewrite filter_snoc_False by done.
        rewrite decide_False by (by intros []). simpl. repeat split; lia.
      + cbn [files log success_count failed_count].
        rewrite filter_snoc_False by done.
        rewrite decide_True by done. simpl. repeat split; lia. }
  destruct (IH (step st m)) as (Hf' & Hl' & Hs' & Hc').
  { intros n f Hn Ht. rewrite Hf. apply (Hall n); [by right|done]. }
  rewrite Hf', Hl', Hs', Hc', Hf, Hl, Hs, Hc.
  repeat split. destruct (decide _); simpl; lia.
Qed.

End Run.

(** * The desired-state resolver in closed form *)

Section Resolver.

Lemma get_enabled_mods_fold (l : list mod_entry) (acc : list string) :
  fold_left
    (λ mods entry,
       let mod_name := entry_get_name entry in
       if entry_get_enabled entry && bool_decide (mod_name ∉ BASE_GAME_MODS)
       then mods ++ [mod_name] else mods) l acc
  = acc ++ (entry_get_name <$> filter wanted l).
Proof.
  revert acc. induction l as [|e l IH]; intros acc.
  { simpl. by rewrite app_nil_r. }
  simpl fold_left. rewrite IH, filter_cons.
  destruct (decide (wanted e)) as [[He Hb]|Hn].
  - rewrite He, bool_decide_eq_true_2 by done. simpl.
    by rewrite <-app_assoc.
  - assert (entry_get_enabled e
            && bool_decide (entry_get_name e ∉ BASE_GAME_MODS) = false) as ->;
      [|done].
    apply andb_false_iff. destruct (entry_get_enabled e) eqn:He; [|by left].
    right. apply bool_decide_eq_false. intros Hb. by apply Hn.
Qed.

Lemma get_enabled_mods_spec (ml : mod_list) :
  get_enabled_mods ml = entry_get_name <$> filter wanted (get_mods ml).
Proof. unfold get_enabled_mods. by rewrite get_enabled_mods_fold. Qed.

Lemma elem_of_get_enabled_mod_names (ml : mod_list) (n : string) :
  n ∈ get_enabled_mod_names ml ↔
  ∃ entry, entry ∈ get_mods ml ∧ entry_get_enabled entry = true
           ∧ entry_get_name entry = n.
Proof.
  unfold get_enabled_mod_names.
  rewrite elem_of_list_to_set, list_elem_of_fmap.
  split.
  - intros (e & -> & [He Hin]%list_elem_of_filter). eauto.
  - intros (e & Hin & He & <-). exists e. split; [done|].
    by apply list_elem_of_filter.
Qed.

(** The desired-fetch sequence holds the enabled names that are not
    base game mods. *)
Lemma elem_of_get_enabled_mods (ml : mod_list) (n : string) :
  n ∈ get_enabled_mods ml ↔
  n ∈ get_enabled_mod_names ml ∧ n ∉ BASE_GAME_MODS.
Proof.
  rewrite get_enabled_mods_spec, elem_of_get_enabled_mod_names,
    list_elem_of_fmap.
  split.
  - intros (e & -> & [[He Hb] Hin]%list_elem_of_filter). eauto.
  - intros [(e & Hin & He & <-) Hb]. exists e. split; [done|].
    by apply list_elem_of_filter.
Qed.

End Resolver.

(** A release is only selected from an answer that was returned. *)
Lemma selected_release_returned (net : network) (n : string) (r : release) :
  selected_release net n = Some r → fetch_mod_info net n ≠ Raised.
Proof.
  unfold selected_release, answer_of.
  by destruct (fetch_mod_info net n).
Qed.

(** * Lookups that raise *)

Section Raising.
Variable net : network.
Variables username token : string.

Lemma answer_of_returned (n : string) (o : option mod_info) :
  fetch_mod_info net n = Returned o → answer_of net n = o.
Proof. unfold answer_of. by intros ->. Qed.

(** A truthy answer is a returned one. *)
Lemma answer_truthy (n : string) :
  is_Some (truthy_or_none mod_info_truthy (answer_of net n))
  ↔ ∃ info, fetch_mod_info net n = Returned (Some info)
            ∧ mod_info_truthy info = true.
Proof.
  unfold answer_of. destruct (fetch_mod_info net n) as [[info|]|]; simpl.
  - destruct (mod_info_truthy info) eqn:Ht.
    + split; [eauto|]. by intros _.
    + split; [by intros []|]. intros (i & [= <-] & ?). congruence.
  - split; [by intros []|]. by intros (i & ? & _).
  - split; [by intros []|]. by intros (i & ? & _).
Qed.

Lemma process_mod_Some (st st' : run_state) (n : string) :
  process_mod net username token st n = Some st'
  ↔ fetch_mod_info net n ≠ Raised ∧ st' = iteration net username token st n.
Proof.
  unfold process_mod, iteration, answer_of.
  destruct (fetch_mod_info net n) as [o|]; split.
  - intros [= <-]. by split.
  - by intros [_ ->].
  - done.
  - by intros [? _].
Qed.

Lemma process_mod_None (st : run_state) (n : string) :
  process_mod net username token st n = None ↔ fetch_mod_info net n = Raised.
Proof. unfold process_mod. by destruct (fetch_mod_info net n). Qed.

Lemma process_mod_returned (st : run_state) (n : string) :
  fetch_mod_info net n ≠ Raised →
  process_mod net username token st n = Some (iteration net username token st n).
Proof. intros H. by apply process_mod_Some. Qed.

(** The loop runs to its end exactly when no lookup raises. *)
Lemma process_mods_completed (l : list string) (st st' : run_state) :
  process_mods net username token l st = Completed st'
  ↔ lookups_return net l ∧ st' = iterations net username token l st.
Proof.
  unfold lookups_return. revert st. induction l as [|m l IH]; intros st.
  - simpl. split.
    + intros [= <-]. split; [|done]. intros n Hn. by apply not_elem_of_nil in Hn.
    + by intros [_ ->].
  - cbn [process_mods].
    destruct (process_mod net username token st m) as [st1|] eqn:Hstep.
    + apply process_mod_Some in Hstep as [Hm ->]. rewrite IH.
      rewrite process_mods_cons. split.
      * intros [Hl ->]. split; [|done].
        intros n [->|Hn]%elem_of_cons; auto.
      * intros [Hl ->]. split; [|done]. intros n Hn. apply Hl. by right.
    + apply process_mod_None in Hstep. split; [done|].
      intros [Hl _]. exfalso. apply (Hl m); [left|done].
Qed.

(** It stops at the first item whose lookup raises, with the variables
    the items before it left. *)
Lemma process_mods_interrupted (l : list string) (st st' : run_state)
    (n : string) :
  process_mods net username token l st = Interrupted st' n
  ↔ ∃ l1 l2, l = l1 ++ n :: l2
             ∧ lookups_return net l1
             ∧ fetch_mod_info net n = Raised
             ∧ st' = iterations net username token l1 st.
Proof.
  unfold lookups_return. revert st. induction l as [|m l IH]; intros st.
  - simpl. split; [done|]. intros (l1 & l2 & Hl & _). by destruct l1.
  - cbn [process_mods].
    destruct (process_mod net username token st m) as [st1|] eqn:Hstep.
    + apply process_mod_Some in Hstep as [Hm ->]. rewrite IH. split.
      * intros (l1 & l2 & -> & Hl1 & Hn & ->).
        exists (m :: l1), l2. split; [done|]. split; [|done].
        intros k [->|Hk]%elem_of_cons; auto.
      * intros (l1 & l2 & Hl & Hl1 & Hn & ->).
        destruct l1 as [|m' l1]; simplify_eq/=.
        exists l1, l2. split; [done|]. split; [|done].
        intros k Hk. apply Hl1. by right.
    + apply process_mod_None in Hstep. split.
      * intros [= <- <-]. exists [], l. split; [done|]. split; [|done].
        intros k Hk. by apply not_elem_of_nil in Hk.
      * intros (l1 & l2 & Hl & Hl1 & Hn & ->).
        destruct l1 as [|m' l1]; simplify_eq/=; [done|].
        exfalso. apply (Hl1 m'); [left|done].
Qed.

End Raising.

(** A run ends with a report exactly when no lookup of a desired item
    raises, and the report is then that of [run_report]. *)
Lemma reconcile_finished (net : network) (username token : string)
    (ml : mod_list) (mods_dir : option (list string)) (R : report) :
  reconcile net username token ml mods_dir = Finished R
  ↔ lookups_return net (get_enabled_mods ml)
    ∧ R = run_report net username token ml mods_dir.
Proof.
  unfold reconcile, run_report. cbv zeta.
  destruct (process_mods net username token (get_enabled_mods ml)
              (initial_state (default [] mods_dir))) as [st|st n] eqn:Hloop.
  - apply process_mods_completed in Hloop as [Hl ->]. split.
    + intros [= <-]. by split.
    + by intros [_ ->].
  - split; [done|]. intros [Hl _].
    apply process_mods_interrupted in Hloop as (l1 & l2 & Heq & _ & Hn & _).
    exfalso. apply (Hl n); [|done]. rewrite Heq, elem_of_app. right. left.
Qed.


(** A run ends with a traceback exactly when the lookup of a desired
    item raises: at the first such item. *)
Lemma reconcile_crashed (net : network) (username token : string)
    (ml : mod_list) (mods_dir : option (list string))
    (st : run_state) (n : string) :
  reconcile net username token ml mods_dir = Crashed st n
  ↔ ∃ l1 l2, get_enabled_mods ml = l1 ++ n :: l2
             ∧ lookups_return net l1
             ∧ fetch_mod_info net n = Raised
             ∧ st = iterations net username token l1
                      (initial_state (default [] mods_dir)).
Proof.
  rewrite <-process_mods_interrupted. unfold reconcile. cbv zeta.
  destruct (process_mods _ _ _ _ _) as [st1|st1 m]; split; try done.
  - by intros [= -> ->].
  - by intros [= -> ->].
Qed.

(** * The specification, claim by claim *)

(** In a statement about a run that ended with the report [R], replaces
    [R] by the report of the run in which every lookup returns. *)
Ltac to_report :=
  lazymatch goal with
  | |- ∀ R : report, reconcile _ _ _ _ _ = Finished R → _ =>
      let R' := fresh R in
      let H := fresh "Hrun" in
      intros R' H; apply reconcile_finished in H as [_ ->]
  | |- ∀ x, _ =>
      let H := fresh "Hpre" in intro H; to_report; revert H
  end.

(** ** Naming convention (C8, C7) *)

(** C8.  Parsing inverts the naming convention: for a non-empty name [n]
    and a non-empty version [v] without underscore, the file name
    [n_v.zip] parses to [(n, v)], whatever underscores [n] has.  Whatever
    parses is of that shape, so a parsed version never has an underscore.
    A name that does not end in [.zip], a base without underscore, a base
    whose only underscore comes first (empty name part) and a base that
    ends in an underscore (empty version part) all parse to nothing. *)
Theorem parse_mod_filename_roundtrip :
  (∀ n v : string,
     n ≠ "" → v ≠ "" → PyStr.contains "_" v = false →
     parse_mod_filename (n +:+ "_" +:+ v +:+ ".zip") = Some (n, v))
  ∧ (∀ f n v : string,
       parse_mod_filename f = Some (n, v) →
       f = n +:+ "_" +:+ v +:+ ".zip"
       ∧ n ≠ "" ∧ v ≠ "" ∧ PyStr.contains "_" v = false)
  ∧ (∀ f : string,
       PyStr.endswith f ".zip" = false → parse_mod_filename f = None)
  ∧ (∀ base : string,
       PyStr.contains "_" base = false →
       parse_mod_filename (base +:+ ".zip") = None)
  ∧ (∀ v : string,
       PyStr.contains "_" v = false →
       parse_mod_filename ("_" +:+ v +:+ ".zip") = None)
  ∧ (∀ n : string, parse_mod_filename (n +:+ "_" +:+ ".zip") = None).
Proof.
  split; [|split; [|split; [|split; [|split]]]].
  - intros n v Hn Hv Hu. by apply parse_mod_filename_artifact.
  - intros f n v H. by apply parse_mod_filename_Some.
  - apply parse_mod_filename_not_zip.
  - apply parse_mod_filename_no_underscore.
  - intros v Hv.
    change ("_" +:+ v +:+ ".zip") with (("" +:+ String "_" v) +:+ ".zip").
    by rewrite parse_mod_filename_split.
  - intros n.
    replace (n +:+ "_" +:+ ".zip") with ((n +:+ String "_" "") +:+ ".zip")
      by (by rewrite PyStrFacts.app_assoc).
    rewrite parse_mod_filename_split by done.
    by rewrite orb_true_r.
Qed.

(** The round trip at a name that has underscores of its own. *)
Lemma parse_mod_filename_roundtrip_witness :
  parse_mod_filename "flib_core_0.16.3.zip" = Some ("flib_core", "0.16.3").
Proof.
  apply (proj1 parse_mod_filename_roundtrip "flib_core" "0.16.3");
    [discriminate | discriminate | reflexivity].
Defined.

(** C7.  A [.zip] file whose name does not parse is still there after
    garbage collection and is in neither counter: the counters and the
    report are those of the directory without the file, and together the
    counters count the files that parse. *)
Theorem cleanup_ignores_malformed (enabled_mod_names : gset string)
    (latest_versions : gmap string string) (dir : list string) (f : string) :
  f ∈ dir →
  PyStr.endswith f ".zip" = true →
  parse_mod_filename f = None →
  ∃ gc, cleanup_old_mods enabled_mod_names latest_versions (Some dir) = Some gc
    ∧ f ∈ gc_files gc
    ∧ deleted_count gc
      = deleted_count (cleanup_files enabled_mod_names latest_versions (unlink f dir))
    ∧ kept_count gc
      = kept_count (cleanup_files enabled_mod_names latest_versions (unlink f dir))
    ∧ gc_log gc
      = gc_log (cleanup_files enabled_mod_names latest_versions (unlink f dir))
    ∧ deleted_count gc + kept_count gc
      = length (filter (λ g, is_Some (parse_mod_filename g)) dir).
Proof.
  intros Hin Hzip Hparse. eexists. split; [reflexivity|].
  assert (Hd : gc_deletes enabled_mod_names latest_versions f = false)
    by (unfold gc_deletes; by rewrite Hparse).
  assert (Hk : gc_keeps enabled_mod_names latest_versions f = false)
    by (unfold gc_keeps; by rewrite Hparse).
  rewrite !cleanup_files_spec. simpl. unfold unlink.
  rewrite !list_filter_filter.
  split; [by apply list_elem_of_filter|].
  assert (∀ (P : string → bool),
            P f = false →
            filter (λ g, P g = true ∧ g ≠ f) dir = filter (λ g, P g = true) dir)
    as Hdrop.
  { intros P HP. apply list_filter_iff. intros g. split; [by intros []|].
    intros Hg. split; [done|]. intros ->. congruence. }
  rewrite !Hdrop by done. repeat split.
  clear Hdrop Hin. induction dir as [|g dir IH]; [done|].
  rewrite !filter_cons.
  destruct (gc_cases enabled_mod_names latest_versions g)
    as [(Hp & Hgd & Hgk)|[(Hgd & Hgk)|(Hgd & Hgk)]]; rewrite Hgd, Hgk.
  - rewrite Hp. rewrite !decide_False; [done| by intros [] |done|done].
  - assert (is_Some (parse_mod_filename g)) as Hs.
    { unfold gc_deletes in Hgd. by destruct (parse_mod_filename g). }
    rewrite decide_True, decide_False, decide_True by done. simpl. lia.
  - assert (is_Some (parse_mod_filename g)) as Hs.
    { unfold gc_keeps in Hgk. by destruct (parse_mod_filename g). }
    rewrite decide_False, decide_True, decide_True by done. simpl. lia.
Qed.

(** [junk.zip] among two artifacts of which one is stale. *)
Lemma cleanup_ignores_malformed_witness :
  ∃ gc, cleanup_old_mods {[ "a" ]} {[ "a" := "2.0" ]}
          (Some ["a_1.0.zip"; "junk.zip"; "a_2.0.zip"]) = Some gc
    ∧ "junk.zip" ∈ gc_files gc
    ∧ deleted_count gc = 1 ∧ kept_count gc = 1.
Proof.
  destruct (cleanup_ignores_malformed {[ "a" ]} {[ "a" := "2.0" ]}
              ["a_1.0.zip"; "junk.zip"; "a_2.0.zip"] "junk.zip")
    as (gc & Hgc & Hin & Hd & Hk & _).
  - apply list_elem_of_In. simpl. tauto.
  - reflexivity.
  - reflexivity.
  - exists gc. split; [exact Hgc|]. split; [exact Hin|].
    rewrite Hd, Hk. vm_compute. split; reflexivity.
Defined.

(** ** A run, step by step *)

Section Reconcile.
Variable net : network.
Variables username token : string.
Variable ml : mod_list.
Variable mods_dir : option (list string).

Local Abbreviation R := (run_report net username token ml mods_dir).

Lemma reconcile_fetched :
  fetched R = iterations net username token (get_enabled_mods ml)
                (initial_state (default [] mods_dir)).
Proof. reflexivity. Qed.

Lemma reconcile_cleaned :
  cleaned R = cleanup_files (get_enabled_mod_names ml)
                (latest_versions (fetched R)) (files (fetched R)).
Proof. reflexivity. Qed.

Lemma reconcile_storage :
  storage R = create "mod-list.json" (gc_files (cleaned R)).
Proof. reflexivity. Qed.

Lemma reconcile_written : written R = write_filtered_mod_list ml.
Proof. reflexivity. Qed.

(** What is there before the run is there when garbage collection starts. *)
Lemma reconcile_files_mono (f : string) :
  f ∈ default [] mods_dir → f ∈ files (fetched R).
Proof. intros Hf. rewrite reconcile_fetched. by apply process_mods_files_mono. Qed.

(** A file whose name parses is there at the end exactly when it was
    there when garbage collection started and was not deleted. *)
Lemma reconcile_storage_parsed (f n v : string) :
  parse_mod_filename f = Some (n, v) →
  f ∈ storage R ↔
  f ∈ files (fetched R)
  ∧ gc_deletes (get_enabled_mod_names ml) (latest_versions (fetched R)) f = false.
Proof.
  intros Hp. rewrite reconcile_storage, elem_of_create, reconcile_cleaned.
  rewrite cleanup_files_elem. split; [|tauto].
  intros [H| ->]; [done|]. by vm_compute in Hp.
Qed.

Lemma reconcile_deletions :
  deletions R =
    gc_event (get_enabled_mod_names ml) (latest_versions (fetched R))
      <$> filter (λ g, gc_deletes (get_enabled_mod_names ml)
                         (latest_versions (fetched R)) g = true)
            (files (fetched R)).
Proof. unfold deletions. rewrite reconcile_cleaned. by rewrite cleanup_files_spec. Qed.

Lemma reconcile_well_counted : well_counted (fetched R).
Proof.
  rewrite reconcile_fetched. apply process_mods_well_counted.
  by split.
Qed.

Lemma reconcile_items :
  omap event_mod (log (fetched R)) = get_enabled_mods ml.
Proof. rewrite reconcile_fetched. by rewrite process_mods_items. Qed.

Lemma reconcile_latest (n : string) :
  latest_versions (fetched R) !! n =
    match selected_release net n with
    | Some r => if bool_decide (n ∈ get_enabled_mods ml)
                then Some (release_version r) else None
    | None => None
    end.
Proof.
  rewrite reconcile_fetched, process_mods_latest. simpl.
  rewrite lookup_empty. by destruct (selected_release net n).
Qed.

End Reconcile.

(** ** Catalog client (C5, C10) *)

(** C5.  [get_latest_release] returns the last element of a non-empty
    releases sequence, whatever the versions in it are, and the run
    records the version of that element.  A lookup that succeeds with no
    releases is counted as skipped, reported as having no releases, and
    changes neither the map nor storage; after the run the map has no
    entry for the name and no download was started for it. *)
Theorem latest_release_is_last :
  (∀ (info : mod_info) (rs : list release) (r : release),
     info_releases info = Some (rs ++ [r]) → get_latest_release info = Some r)
  ∧ (∀ net username token ml mods_dir (n : string) info rs (r : release) R,
       n ∈ get_enabled_mods ml →
       fetch_mod_info net n = Returned (Some info) →
       info_releases info = Some (rs ++ [r]) →
       r ≠ ∅ →
       reconcile net username token ml mods_dir = Finished R →
       latest_versions (fetched R) !! n = Some (release_version r))
  ∧ (∀ net username token (st : run_state) (n : string) info,
       fetch_mod_info net n = Returned (Some info) →
       mod_info_truthy info = true →
       default [] (info_releases info) = [] →
       process_mod net username token st n =
         Some {| success_count := success_count st;
                 failed_count := failed_count st;
                 skipped_count := skipped_count st + 1;
                 latest_versions := latest_versions st;
                 files := files st;
                 log := log st ++ [NoReleases n] |})
  ∧ (∀ net username token ml mods_dir (n : string) info R,
       fetch_mod_info net n = Returned (Some info) →
       mod_info_truthy info = true →
       default [] (info_releases info) = [] →
       reconcile net username token ml mods_dir = Finished R →
       latest_versions (fetched R) !! n = None
       ∧ ∀ f ok, Downloaded n f ok ∉ log (fetched R)).
Proof.
  assert (Hlast : ∀ (info : mod_info) rs (r : release),
            info_releases info = Some (rs ++ [r]) →
            get_latest_release info = Some r).
  { intros info rs r H. unfold get_latest_release. rewrite H. simpl.
    destruct (rs ++ [r]) eqn:Happ; [by destruct rs|].
    rewrite <-Happ. apply last_snoc. }
  assert (Hnone : ∀ net (n : string) info,
            answer_of net n = Some info →
            mod_info_truthy info = true →
            default [] (info_releases info) = [] →
            selected_release net n = None).
  { intros net n info Hf Ht He. unfold selected_release.
    rewrite Hf. simpl. rewrite Ht. unfold get_latest_release. by rewrite He. }
  split; [exact Hlast|]. split; [|split].
  - intros net username token ml mods_dir n info rs r R Hn Hf Hrs Hr HR.
    apply reconcile_finished in HR as [_ ->].
    apply answer_of_returned in Hf.
    rewrite reconcile_latest.
    assert (selected_release net n = Some r) as ->.
    { unfold selected_release. rewrite Hf. simpl.
      assert (mod_info_truthy info = true) as ->
        by (unfold mod_info_truthy; by rewrite Hrs).
      rewrite (Hlast info rs r Hrs). simpl. unfold release_truthy.
      by rewrite bool_decide_eq_true_2. }
    by rewrite bool_decide_eq_true_2.
  - intros net username token st n info Hf Ht He.
    rewrite process_mod_returned by (by rewrite Hf).
    apply answer_of_returned in Hf. f_equal.
    unfold iteration, loop_body. rewrite Hf. simpl. rewrite Ht.
    unfold get_latest_release. by rewrite He.
  - intros net username token ml mods_dir n info R Hf Ht He HR.
    apply reconcile_finished in HR as [_ ->].
    apply answer_of_returned in Hf.
    pose proof (Hnone net n info Hf Ht He) as Hsel. split.
    + rewrite reconcile_latest. by rewrite Hsel.
    + intros f ok Hin. rewrite reconcile_fetched in Hin.
      apply process_mods_downloaded in Hin as [Hin|[_ Hs]].
      * by apply not_elem_of_nil in Hin.
      * rewrite Hsel in Hs. by destruct Hs.
Qed.

(** A catalog that lists the releases of ["a"] newest first: the run
    still takes the last one.  ["b"] has no releases. *)
Lemma latest_release_is_last_witness :
  let net := Scenario.network_of
               [("a", Scenario.answer [ {[ "version" := "2.0" ]};
                                        {[ "version" := "1.0" ]} ]);
                ("b", Scenario.answer [])] Complete in
  let ml := Scenario.declaration
              [Scenario.entry "a" true; Scenario.entry "b" true] in
  ∃ R, reconcile net "user" "token" ml (Some []) = Finished R
    ∧ latest_versions (fetched R) !! "a" = Some "1.0"
    ∧ latest_versions (fetched R) !! "b" = None
    ∧ ∀ f ok, Downloaded "b" f ok ∉ log (fetched R).
Proof.
  intros net ml. eexists. split; [by vm_compute|].
  destruct latest_release_is_last as (_ & Hrun & _ & Hempty).
  split.
  - etrans.
    + apply (Hrun net "user" "token" ml (Some []) "a"
               (Scenario.answer [ {[ "version" := "2.0" ]}; {[ "version" := "1.0" ]} ])
               [ {[ "version" := "2.0" ]} ] {[ "version" := "1.0" ]}).
      * apply list_elem_of_In. vm_compute. tauto.
      * reflexivity.
      * reflexivity.
      * intros Heq. apply (f_equal (λ m : release, m !! "version")) in Heq.
        vm_compute in Heq. discriminate.
      * by vm_compute.
    + by vm_compute.
  - apply (Hempty net "user" "token" ml (Some []) "b" (Scenario.answer []));
      [reflexivity|reflexivity|reflexivity|by vm_compute].
Defined.

(** C10.  When the release the run goes on with has no ["version"] field,
    the map entry of the name is the string ["unknown"]; when it has no
    ["file_name"] either, the file looked for is [name_unknown.zip].
    Every artifact of that name that was in storage with another version
    string is then deleted as outdated by garbage collection. *)
Theorem missing_version_is_unknown (net : network) (username token : string)
    (ml : mod_list) (mods_dir : option (list string)) (n : string) (r : release) :
  n ∈ get_enabled_mods ml →
  selected_release net n = Some r →
  r !! "version" = None →
  ∀ R, reconcile net username token ml mods_dir = Finished R →
  latest_versions (fetched R) !! n = Some "unknown"
  ∧ (r !! "file_name" = None → target_file net n = Some (n +:+ "_unknown.zip"))
  ∧ ∀ f v : string,
      f ∈ default [] mods_dir →
      parse_mod_filename f = Some (n, v) →
      v ≠ "unknown" →
      (f ∉ storage R) ∧ (DeletedOutdated f "unknown" ∈ deletions R).
Proof.
  to_report.
  intros Hn Hsel Hver. cbv zeta.
  set (L := latest_versions (fetched (run_report net username token ml mods_dir))).
  assert (Hlatest : L !! n = Some "unknown").
  { unfold L. rewrite reconcile_latest, Hsel.
    rewrite bool_decide_eq_true_2 by done.
    unfold release_version. by rewrite Hver. }
  split; [exact Hlatest|]. split.
  { intros Hfile. unfold target_file. rewrite Hsel. simpl.
    unfold release_filename, release_version. by rewrite Hver, Hfile. }
  intros f v Hf Hp Hv.
  assert (Hen : n ∈ get_enabled_mod_names ml)
    by (by apply elem_of_get_enabled_mods in Hn as [? _]).
  assert (Hdel : gc_deletes (get_enabled_mod_names ml) L f = true).
  { unfold gc_deletes. rewrite Hp, Hlatest.
    rewrite bool_decide_eq_false_2 by (by intros []).
    simpl. by rewrite bool_decide_eq_true_2. }
  split.
  - rewrite (reconcile_storage_parsed _ _ _ _ _ f n v Hp).
    fold L. intros [_ Hkeep]. congruence.
  - rewrite reconcile_deletions. apply list_elem_of_fmap.
    exists f. split.
    + unfold gc_event. rewrite Hp.
      rewrite bool_decide_eq_false_2 by (by intros []).
      fold L. by rewrite Hlatest.
    + apply list_elem_of_filter. split; [exact Hdel|].
      by apply reconcile_files_mono.
Qed.

(** The latest release of ["a"] has a download url and nothing else;
    storage holds version 1.0 of ["a"]. *)
Lemma missing_version_is_unknown_witness :
  let net := Scenario.network_of
               [("a", Scenario.answer [ {[ "download_url" := "/download/a" ]} ])]
               Complete in
  let ml := Scenario.declaration [Scenario.entry "a" true] in
  ∃ R, reconcile net "user" "token" ml (Some ["a_1.0.zip"]) = Finished R
    ∧ latest_versions (fetched R) !! "a" = Some "unknown"
    ∧ target_file net "a" = Some "a_unknown.zip"
    ∧ ("a_1.0.zip" ∉ storage R)
    ∧ (DeletedOutdated "a_1.0.zip" "unknown" ∈ deletions R).
Proof.
  intros net ml. eexists. split; [by vm_compute|].
  edestruct (missing_version_is_unknown net "user" "token" ml
               (Some ["a_1.0.zip"]) "a" {[ "download_url" := "/download/a" ]})
    as (Hlatest & Hfile & Hgc).
  - apply list_elem_of_In. vm_compute. tauto.
  - by vm_compute.
  - by vm_compute.
  - by vm_compute.
  - split; [exact Hlatest|]. split; [apply Hfile; by vm_compute|].
    apply (Hgc "a_1.0.zip" "1.0").
    + apply list_elem_of_In. simpl. tauto.
    + reflexivity.
    + discriminate.
Defined.

(** ** The exclusion set (C3) *)

Lemma deleted_file_gc_event (E : gset string) (L : gmap string string)
    (g : string) :
  deleted_file (gc_event E L g) = Some g.
Proof.
  unfold gc_event. destruct (parse_mod_filename g) as [[n v]|]; [|done].
  by case_bool_decide.
Qed.

Lemma deletes_file_iff (net : network) (username token : string)
    (ml : mod_list) (mods_dir : option (list string)) (f : string) :
  let R := run_report net username token ml mods_dir in
  deletes_file R f ↔
  f ∈ files (fetched R)
  ∧ gc_deletes (get_enabled_mod_names ml) (latest_versions (fetched R)) f = true.
Proof.
  intros R. unfold deletes_file, R. rewrite reconcile_deletions. split.
  - intros (e & (g & -> & [Hd Hg]%list_elem_of_filter)%list_elem_of_fmap & He).
    rewrite deleted_file_gc_event in He. by simplify_eq.
  - intros [Hf Hd]. eexists. split.
    + apply list_elem_of_fmap. exists f. split; [done|].
      by apply list_elem_of_filter.
    + apply deleted_file_gc_event.
Qed.

Lemma handles_item_iff (net : network) (username token : string)
    (ml : mod_list) (mods_dir : option (list string)) (n : string) :
  handles_item (run_report net username token ml mods_dir) n
  ↔ n ∈ get_enabled_mods ml.
Proof.
  unfold handles_item. rewrite <-(reconcile_items net username token ml mods_dir).
  rewrite list_elem_of_omap. naive_solver.
Qed.

(** C3 on the code: a base game mod is never looked up or fetched,
    whatever the declaration says.  Its artifacts are never deleted when
    the declaration lists it as enabled; when the declaration lists it
    as disabled or not at all, the artifacts that are in storage are
    deleted as those of a disabled mod. *)
Theorem base_game_mods_excluded (net : network) (username token : string)
    (ml : mod_list) (mods_dir : option (list string)) (n : string) :
  n ∈ BASE_GAME_MODS →
  ∀ R, reconcile net username token ml mods_dir = Finished R →
  (n ∉ get_enabled_mods ml)
  ∧ ¬ handles_item R n
  ∧ (n ∈ get_enabled_mod_names ml →
     ∀ f v : string, parse_mod_filename f = Some (n, v) →
       ¬ deletes_file R f ∧ (f ∈ files (fetched R) → f ∈ storage R))
  ∧ (n ∉ get_enabled_mod_names ml →
     ∀ f v : string, parse_mod_filename f = Some (n, v) →
       f ∈ default [] mods_dir →
       (f ∉ storage R) ∧ (DeletedDisabled f ∈ deletions R)).
Proof.
  to_report.
  intros Hbase. cbv zeta.
  set (L := latest_versions (fetched (run_report net username token ml mods_dir))).
  assert (Hnot : n ∉ get_enabled_mods ml)
    by (rewrite elem_of_get_enabled_mods; tauto).
  split; [exact Hnot|]. split; [by rewrite handles_item_iff|].
  assert (Hlatest : L !! n = None).
  { unfold L. rewrite reconcile_latest.
    destruct (selected_release net n); [|done].
    by rewrite bool_decide_eq_false_2. }
  split.
  - intros Hen f v Hp.
    assert (Hkeep : gc_deletes (get_enabled_mod_names ml) L f = false).
    { unfold gc_deletes. rewrite Hp, Hlatest.
      by rewrite bool_decide_eq_false_2 by (by intros []). }
    split.
    + rewrite deletes_file_iff. fold L. intros [_ ?]. congruence.
    + intros Hf. by rewrite (reconcile_storage_parsed _ _ _ _ _ f n v Hp).
  - intros Hdis f v Hp Hf.
    assert (Hdel : gc_deletes (get_enabled_mod_names ml) L f = true).
    { unfold gc_deletes. rewrite Hp. by rewrite bool_decide_eq_true_2. }
    split.
    + rewrite (reconcile_storage_parsed _ _ _ _ _ f n v Hp).
      fold L. intros [_ ?]. congruence.
    + rewrite reconcile_deletions. apply list_elem_of_fmap.
      exists f. split.
      * unfold gc_event. rewrite Hp. by rewrite bool_decide_eq_true_2.
      * apply list_elem_of_filter. split; [exact Hdel|].
        by apply reconcile_files_mono.
Qed.

(** ["base"] declared enabled, with an artifact of its own in storage. *)
Lemma base_game_mods_excluded_witness :
  let net := Scenario.network_of [] Complete in
  let ml := Scenario.declaration [Scenario.entry "base" true] in
  ∃ R, reconcile net "user" "token" ml (Some ["base_2.0.zip"]) = Finished R
    ∧ ("base" ∉ get_enabled_mods ml)
    ∧ ¬ handles_item R "base"
    ∧ ¬ deletes_file R "base_2.0.zip"
    ∧ "base_2.0.zip" ∈ storage R.
Proof.
  intros net ml. eexists. split; [by vm_compute|].
  edestruct (base_game_mods_excluded net "user" "token" ml
               (Some ["base_2.0.zip"]) "base")
    as (Hnot & Hitem & Hen & _).
  - compute_decision.
  - by vm_compute.
  - split; [exact Hnot|]. split; [exact Hitem|].
    destruct (Hen) with (f := "base_2.0.zip") (v := "2.0") as [Hd Hs].
    + compute_decision.
    + reflexivity.
    + split; [exact Hd|]. apply Hs.
      apply list_elem_of_In. vm_compute. tauto.
Defined.

(** C3 fails as stated: with ["base"] declared disabled, the run deletes
    [base_2.0.zip]. *)
Lemma exclusion_claim_counterexample :
  ¬ exclusion_claim (Scenario.network_of [] Complete) "user" "token"
      (Scenario.declaration [Scenario.entry "base" false])
      (Some ["base_2.0.zip"]).
Proof.
  intros Hclaim.
  edestruct Hclaim as [_ Hkeep].
  { by vm_compute. }
  { instantiate (1 := "base"). compute_decision. }
  apply (Hkeep "base_2.0.zip" "2.0"); [reflexivity|].
  exists (DeletedDisabled "base_2.0.zip"). split; [|reflexivity].
  apply list_elem_of_In. vm_compute. tauto.
Qed.

(** ** Missing fields of a declared entry (C9) *)

Lemma resolve_not_enabled (before after : list mod_entry) (entry : mod_entry) :
  entry_get_enabled entry = false →
  resolve {| ml_mods := Some (before ++ entry :: after) |}
  = resolve {| ml_mods := Some (before ++ after) |}.
Proof.
  intros He. unfold resolve, get_enabled_mod_names, write_filtered_mod_list.
  rewrite !get_enabled_mods_spec. unfold get_mods. simpl.
  rewrite !filter_app, !filter_cons.
  rewrite (decide_False (P := wanted entry)) by (intros [? _]; congruence).
  rewrite (decide_False (P := entry_get_enabled entry = true)) by congruence.
  by rewrite <-!filter_app.
Qed.

Lemma resolve_same_reading (before after : list mod_entry) (e1 e2 : mod_entry) :
  entry_get_enabled e1 = entry_get_enabled e2 →
  entry_get_name e1 = entry_get_name e2 →
  fst (resolve {| ml_mods := Some (before ++ e1 :: after) |})
  = fst (resolve {| ml_mods := Some (before ++ e2 :: after) |}).
Proof.
  intros He Hn. unfold resolve, get_enabled_mod_names. simpl.
  rewrite !get_enabled_mods_spec. unfold get_mods. simpl.
  rewrite !filter_app, !filter_cons.
  assert (wanted e1 ↔ wanted e2) as Hw
    by (unfold wanted; rewrite He, Hn; tauto).
  assert (entry_get_enabled e1 = true ↔ entry_get_enabled e2 = true) as Hon
    by (rewrite He; tauto).
  repeat case_decide; try tauto;
    rewrite ?fmap_app, ?fmap_cons, ?Hn; done.
Qed.

(** C9.  An entry without the ["enabled"] field is read like the same
    entry with [enabled] false, and like no entry at all: the desired
    sequence, the enabled-name set and the filtered document are the
    same, and the entry is not in the filtered document.  When no entry
    of that name is enabled, the artifacts of the name that are in
    storage are deleted as those of a disabled mod.  An entry without
    the ["name"] field is read like the same entry named [""]. *)
Theorem missing_fields_read_as_defaults :
  (∀ (before after : list mod_entry) (entry : mod_entry),
     entry_enabled entry = None →
     let ml := {| ml_mods := Some (before ++ entry :: after) |} in
     resolve ml = resolve {| ml_mods := Some (before ++ after) |}
     ∧ fst (resolve ml)
       = fst (resolve {| ml_mods := Some (before ++ set_enabled false entry :: after) |})
     ∧ get_mods (write_filtered_mod_list ml)
       = get_mods (write_filtered_mod_list
           {| ml_mods := Some (before ++ set_enabled false entry :: after) |})
     ∧ (entry ∉ get_mods (write_filtered_mod_list ml))
     ∧ (entry_get_name entry
          ∉ get_enabled_mods {| ml_mods := Some (before ++ after) |} →
        entry_get_name entry ∉ get_enabled_mods ml))
  ∧ (∀ net username token (ml : mod_list) mods_dir (entry : mod_entry)
       (f v : string),
       entry ∈ get_mods ml →
       entry_enabled entry = None →
       (∀ other, other ∈ get_mods ml →
                 entry_get_name other = entry_get_name entry →
                 entry_get_enabled other = false) →
       f ∈ default [] mods_dir →
       parse_mod_filename f = Some (entry_get_name entry, v) →
       ∀ R, reconcile net username token ml mods_dir = Finished R →
       (f ∉ storage R) ∧ (DeletedDisabled f ∈ deletions R))
  ∧ (∀ (before after : list mod_entry) (entry : mod_entry),
       entry_name entry = None →
       entry_get_name entry = ""
       ∧ fst (resolve {| ml_mods := Some (before ++ entry :: after) |})
         = fst (resolve {| ml_mods := Some (before ++ set_name "" entry :: after) |})).
Proof.
  split; [|split].
  - intros before after entry He. cbv zeta.
    assert (Hoff : entry_get_enabled entry = false)
      by (unfold entry_get_enabled; by rewrite He).
    split; [by apply resolve_not_enabled|].
    split; [by apply resolve_same_reading|].
    split; [|split].
    + pose proof (resolve_not_enabled before after entry Hoff) as H1.
      pose proof (resolve_not_enabled before after (set_enabled false entry)
                    eq_refl) as H2.
      unfold resolve in H1, H2.
      injection H1 as _ _ H1. injection H2 as _ _ H2.
      unfold write_filtered_mod_list. simpl. congruence.
    + unfold write_filtered_mod_list, get_mods. simpl.
      rewrite list_elem_of_filter. intros [? _]. congruence.
    + intros Hother.
      pose proof (resolve_not_enabled before after entry Hoff) as H1.
      unfold resolve in H1. injection H1 as H1 _ _. by rewrite H1.
  - intros net username token ml mods_dir entry f v Hin He Hall Hf Hp R HR.
    apply reconcile_finished in HR as [_ ->].
    set (L := latest_versions (fetched (run_report net username token ml mods_dir))).
    assert (Hdis : entry_get_name entry ∉ get_enabled_mod_names ml).
    { rewrite elem_of_get_enabled_mod_names.
      intros (other & Ho & Hen & Hname).
      rewrite (Hall other Ho Hname) in Hen. discriminate. }
    assert (Hdel : gc_deletes (get_enabled_mod_names ml) L f = true).
    { unfold gc_deletes. rewrite Hp. by rewrite bool_decide_eq_true_2. }
    split.
    + rewrite (reconcile_storage_parsed _ _ _ _ _ f _ v Hp).
      fold L. intros [_ ?]. congruence.
    + rewrite reconcile_deletions. apply list_elem_of_fmap.
      exists f. split.
      * unfold gc_event. rewrite Hp. by rewrite bool_decide_eq_true_2.
      * apply list_elem_of_filter. split; [exact Hdel|].
        by apply reconcile_files_mono.
  - intros before after entry Hn.
    assert (Hname : entry_get_name entry = "")
      by (unfold entry_get_name; by rewrite Hn).
    split; [exact Hname|]. by apply resolve_same_reading.
Qed.

(** An entry [{"name": "b"}] between two enabled ones, with an artifact
    of ["b"] in storage. *)
Lemma missing_fields_read_as_defaults_witness :
  let b := {| entry_name := Some "b"; entry_enabled := None; entry_extra := [] |} in
  let ml := Scenario.declaration [Scenario.entry "a" true; b; Scenario.entry "base" true] in
  resolve ml
  = resolve (Scenario.declaration [Scenario.entry "a" true; Scenario.entry "base" true])
  ∧ (b ∉ get_mods (write_filtered_mod_list ml))
  ∧ ∃ R, reconcile (Scenario.network_of [] Complete) "user" "token" ml
           (Some ["b_1.0.zip"]) = Finished R
       ∧ ("b_1.0.zip" ∉ storage R)
       ∧ (DeletedDisabled "b_1.0.zip" ∈ deletions R).
Proof.
  intros b ml.
  destruct missing_fields_read_as_defaults as (Hread & Hgc & _).
  destruct (Hread [Scenario.entry "a" true] [Scenario.entry "base" true] b eq_refl)
    as (Hsame & _ & _ & Hout & _).
  split; [exact Hsame|]. split; [exact Hout|].
  eexists. split; [by vm_compute|].
  apply (Hgc (Scenario.network_of [] Complete) "user" "token" ml
           (Some ["b_1.0.zip"]) b "b_1.0.zip" "1.0").
  - apply list_elem_of_In. simpl. tauto.
  - reflexivity.
  - intros other Ho Hname. apply list_elem_of_In in Ho. simpl in Ho.
    destruct Ho as [<-|[<-|[<-|[]]]]; [discriminate Hname|reflexivity|discriminate Hname].
  - apply list_elem_of_In. simpl. tauto.
  - reflexivity.
  - by vm_compute.
Defined.

(** ** Exit status (C6) *)

Lemma length_filter_zero {A} (P : A → Prop) `{!∀ x, Decision (P x)} (l : list A) :
  length (filter P l) = 0 ↔ ∀ x, x ∈ l → ¬ P x.
Proof.
  split.
  - intros Hlen x Hx HP.
    assert (x ∈ filter P l) as Hin by (by apply list_elem_of_filter).
    destruct (filter P l); [by apply not_elem_of_nil in Hin|done].
  - intros Hall. by rewrite filter_none.
Qed.

Lemma process_mods_log_length (net : network) (username token : string)
    (l : list string) (st : run_state) :
  length (log (iterations net username token l st))
  = length (log st) + length l.
Proof.
  revert st. induction l as [|m l IH]; intros st; [simpl; lia|].
  rewrite process_mods_cons, IH.
  destruct (process_mod_log net username token st m) as (e & -> & _).
  rewrite length_app. simpl. lia.
Qed.

(** The exit status of a run in which no lookup raises. *)
Lemma main_finished (argv : list string) (env_username env_token : string)
    (ml : mod_list) (mods_dir : option (list string)) (net : network)
    (R : report) :
  let creds := credentials argv env_username env_token in
  ¬ credentials_missing argv env_username env_token →
  reconcile net creds.1 creds.2 ml mods_dir = Finished R →
  main argv env_username env_token (Some ml) mods_dir net
  = ((if 0 <? failed_count (fetched R) then 1%Z else 0%Z), Some (Finished R)).
Proof.
  cbv zeta. unfold main, credentials_missing.
  destruct (credentials argv env_username env_token) as [USERNAME TOKEN].
  simpl fst. simpl snd. intros Hcreds HR.
  assert (PyStr.truthy USERNAME = true ∧ PyStr.truthy TOKEN = true) as [-> ->].
  { rewrite !PyStrFacts.truthy_true. tauto. }
  simpl negb. simpl orb. cbv iota. rewrite HR.
  by destruct (0 <? failed_count (fetched R)).
Qed.

(** The run stops at the first lookup that raises. *)
Lemma main_crashed (argv : list string) (env_username env_token : string)
    (ml : mod_list) (mods_dir : option (list string)) (net : network)
    (st : run_state) (n : string) :
  let creds := credentials argv env_username env_token in
  ¬ credentials_missing argv env_username env_token →
  reconcile net creds.1 creds.2 ml mods_dir = Crashed st n →
  main argv env_username env_token (Some ml) mods_dir net
  = (1%Z, Some (Crashed st n)).
Proof.
  cbv zeta. unfold main, credentials_missing.
  destruct (credentials argv env_username env_token) as [USERNAME TOKEN].
  simpl fst. simpl snd. intros Hcreds HR.
  assert (PyStr.truthy USERNAME = true ∧ PyStr.truthy TOKEN = true) as [-> ->].
  { rewrite !PyStrFacts.truthy_true. tauto. }
  simpl negb. simpl orb. cbv iota. by rewrite HR.
Qed.

(** C6 on the code.  [fetch_mod_info] catches HTTPError, URLError and
    JSONDecodeError only, and [main] calls it outside any [try]: a lookup
    that raises anything else ends the run at that item.  The items
    before it were processed, one event each; the item itself and the
    ones after it are not processed, nothing is garbage collected, no
    filtered document is written, and the interpreter exits with 1. *)
Theorem uncaught_lookup_error_aborts_run (argv : list string)
    (env_username env_token : string) (ml : mod_list)
    (mods_dir : option (list string)) (net : network)
    (processed rest : list string) (n : string) :
  ¬ credentials_missing argv env_username env_token →
  get_enabled_mods ml = processed ++ n :: rest →
  lookups_return net processed →
  fetch_mod_info net n = Raised →
  ∃ st,
    main argv env_username env_token (Some ml) mods_dir net
    = (1%Z, Some (Crashed st n))
    ∧ omap event_mod (log st) = processed
    ∧ length (log st) < length (get_enabled_mods ml)
    ∧ success_count st + failed_count st + skipped_count st = length processed
    ∧ (∀ R, main argv env_username env_token (Some ml) mods_dir net
            ≠ (0%Z, Some (Finished R)))
    ∧ (∀ R, main argv env_username env_token (Some ml) mods_dir net
            ≠ (1%Z, Some (Finished R))).
Proof.
  intros Hcreds Hl Hret Hraise.
  set (creds := credentials argv env_username env_token).
  set (st := iterations net creds.1 creds.2 processed
               (initial_state (default [] mods_dir))).
  assert (HR : reconcile net creds.1 creds.2 ml mods_dir = Crashed st n).
  { apply reconcile_crashed. exists processed, rest. done. }
  assert (Hmain := main_crashed argv env_username env_token ml mods_dir net
                     st n Hcreds HR).
  exists st. split; [exact Hmain|].
  assert (Hlen : length (log st) = length processed).
  { unfold st. by rewrite process_mods_log_length. }
  split; [|split; [|split; [|split]]].
  - unfold st. by rewrite process_mods_items.
  - rewrite Hlen, Hl, length_app. simpl. lia.
  - destruct (process_mods_well_counted net creds.1 creds.2 processed
                (initial_state (default [] mods_dir))) as [_ Htotal];
      [by split|].
    fold st in Htotal. lia.
  - intros R. rewrite Hmain. congruence.
  - intros R. rewrite Hmain. congruence.
Qed.

(** Three enabled mods, the second with a space in its name: [urlopen]
    raises InvalidURL for its url.  ["a"] is fetched, then the run ends;
    ["b"] is never looked up and the stale [b_0.9.zip] stays. *)
Lemma uncaught_lookup_error_aborts_run_witness :
  let net := Scenario.network_of
               [("a", Scenario.answer [ {[ "version" := "1.0" ]} ]);
                ("b", Scenario.answer [ {[ "version" := "1.0" ]} ])] Complete in
  let ml := Scenario.declaration
              [Scenario.entry "a" true; Scenario.entry "Squeak Through" true;
               Scenario.entry "b" true] in
  ∃ st,
    main ["download_mods.py"; "user"; "token"] "" "" (Some ml)
      (Some ["b_0.9.zip"]) net
    = (1%Z, Some (Crashed st "Squeak Through"))
    ∧ omap event_mod (log st) = ["a"]
    ∧ length (log st) < 3
    ∧ "b_0.9.zip" ∈ files st.
Proof.
  intros net ml.
  destruct (uncaught_lookup_error_aborts_run
              ["download_mods.py"; "user"; "token"] "" "" ml
              (Some ["b_0.9.zip"]) net ["a"] ["b"] "Squeak Through")
    as (st & Hmain & Hitems & Hlen & _).
  - intros [H|H]; vm_compute in H; discriminate.
  - by vm_compute.
  - intros m Hm. apply list_elem_of_In in Hm. simpl in Hm.
    destruct Hm as [<-|[]]. by vm_compute.
  - by vm_compute.
  - exists st. split; [exact Hmain|]. split; [exact Hitems|].
    split; [exact Hlen|].
    vm_compute in Hmain. injection Hmain as <-.
    apply list_elem_of_In. vm_compute. tauto.
Defined.

(** ** The garbage collection rule (C2) and the retention invariant (C1) *)

(** The rule of [cleanup_old_mods] for a file that parses, case by case.
    The recorded version [""] is falsy in
    [if latest_version and version != latest_version], so nothing is
    outdated against it. *)
Lemma cleanup_rule (E : gset string) (L : gmap string string)
    (dir : list string) (f n v : string) :
  f ∈ dir →
  parse_mod_filename f = Some (n, v) →
  let gc := cleanup_files E L dir in
  (n ∉ E → (f ∉ gc_files gc) ∧ (DeletedDisabled f ∈ gc_log gc))
  ∧ (n ∈ E → ∀ lv, L !! n = Some lv → lv ≠ "" → v ≠ lv →
       (f ∉ gc_files gc) ∧ (DeletedOutdated f lv ∈ gc_log gc))
  ∧ (n ∈ E → L !! n = None ∨ L !! n = Some v ∨ L !! n = Some "" →
       f ∈ gc_files gc ∧ ∀ e, e ∈ gc_log gc → deleted_file e ≠ Some f).
Proof.
  intros Hf Hp. cbv zeta. rewrite cleanup_files_spec. simpl.
  assert (Hlog : ∀ e, gc_deletes E L f = true → e = gc_event E L f →
            e ∈ gc_event E L <$> filter (λ g, gc_deletes E L g = true) dir).
  { intros e Hd ->. apply list_elem_of_fmap. exists f. split; [done|].
    by apply list_elem_of_filter. }
  split; [|split].
  - intros Hn.
    assert (Hd : gc_deletes E L f = true).
    { unfold gc_deletes. rewrite Hp. by rewrite bool_decide_eq_true_2. }
    split.
    + rewrite list_elem_of_filter. intros [? _]. congruence.
    + apply Hlog; [done|]. unfold gc_event. rewrite Hp.
      by rewrite bool_decide_eq_true_2.
  - intros Hn lv HL Hlv Hv.
    assert (Hd : gc_deletes E L f = true).
    { unfold gc_deletes. rewrite Hp, HL.
      rewrite bool_decide_eq_false_2 by (by intros []). simpl.
      apply PyStrFacts.truthy_true in Hlv. rewrite Hlv.
      by rewrite bool_decide_eq_true_2. }
    split.
    + rewrite list_elem_of_filter. intros [? _]. congruence.
    + apply Hlog; [done|]. unfold gc_event. rewrite Hp, HL.
      by rewrite bool_decide_eq_false_2 by (by intros []).
  - intros Hn HL.
    assert (Hd : gc_deletes E L f = false).
    { unfold gc_deletes. rewrite Hp.
      rewrite bool_decide_eq_false_2 by (by intros []). simpl.
      destruct HL as [->|[->| ->]]; simpl; [done| |done].
      rewrite bool_decide_eq_false_2 by (by intros []).
      by rewrite andb_false_r. }
    split; [by apply list_elem_of_filter|].
    intros e (g & -> & [Hg _]%list_elem_of_filter)%list_elem_of_fmap.
    rewrite deleted_file_gc_event. intros [= ->]. congruence.
Qed.

(** C2.  The code at an input where it departs from the stated rule:
    the catalog's latest release of ["a"] has the version [""], so the
    map records ["a" ↦ ""]; [a_1.0.zip] has an enabled name that is in
    the map with another version, and the stated rule deletes it.  The
    run keeps it, counts it as kept and deletes nothing. *)
Theorem empty_latest_version_keeps_stale :
  let net := Scenario.network_of
               [("a", Scenario.answer
                        [ {[ "version" := ""; "download_url" := "/download/a" ]} ])]
               Complete in
  let ml := Scenario.declaration [Scenario.entry "a" true] in
  let out := main ["download_mods.py"; "user"; "token"] "" "" (Some ml)
               (Some ["a_1.0.zip"]) net in
  ∃ R, out = (0%Z, Some (Finished R))
    ∧ "a" ∈ get_enabled_mod_names ml
    ∧ latest_versions (fetched R) !! "a" = Some ""
    ∧ parse_mod_filename "a_1.0.zip" = Some ("a", "1.0")
    ∧ "a_1.0.zip" ∈ storage R
    ∧ deletions R = []
    ∧ kept_count (cleaned R) = 1.
Proof.
  intros net ml out. eexists. split; [by vm_compute|].
  split; [compute_decision|]. split; [by vm_compute|].
  split; [reflexivity|]. split; [|split; by vm_compute].
  apply list_elem_of_In. vm_compute. tauto.
Qed.

(** C1 on the code.  For an artifact that is in storage when garbage
    collection starts (those there before the run are) and whose name
    parses to [(n, v)], when the version recorded for [n] is not [""]:
    it is in storage after the run exactly when [n] is in the full
    enabled-name set, base game mods included, and the map has no entry
    for [n] or the entry [v].  For a name that is not a base game mod the
    enabled-name set can be replaced by the desired set. *)
Theorem retention_invariant (net : network) (username token : string)
    (ml : mod_list) (mods_dir : option (list string)) (f n v : string) :
  ∀ R, reconcile net username token ml mods_dir = Finished R →
  f ∈ files (fetched R) →
  parse_mod_filename f = Some (n, v) →
  latest_versions (fetched R) !! n ≠ Some "" →
  (f ∈ storage R ↔
   n ∈ get_enabled_mod_names ml
   ∧ (latest_versions (fetched R) !! n = None
      ∨ latest_versions (fetched R) !! n = Some v))
  ∧ (n ∉ BASE_GAME_MODS →
     (f ∈ storage R ↔
      n ∈ get_enabled_mods ml
      ∧ (latest_versions (fetched R) !! n = None
         ∨ latest_versions (fetched R) !! n = Some v)))
  ∧ (∀ g, g ∈ default [] mods_dir → g ∈ files (fetched R)).
Proof.
  to_report.
  cbv zeta.
  set (L := latest_versions (fetched (run_report net username token ml mods_dir))).
  intros Hf Hp Hne.
  assert (Hmain : f ∈ storage (run_report net username token ml mods_dir) ↔
                  n ∈ get_enabled_mod_names ml ∧ (L !! n = None ∨ L !! n = Some v)).
  { rewrite (reconcile_storage_parsed _ _ _ _ _ f n v Hp). fold L.
    unfold gc_deletes. rewrite Hp.
    destruct (decide (n ∈ get_enabled_mod_names ml)) as [Hn|Hn].
    - rewrite bool_decide_eq_false_2 by (by intros []). simpl.
      destruct (L !! n) as [lv|] eqn:HL; simpl; [|tauto].
      assert (PyStr.truthy lv = true) as ->
        by (apply PyStrFacts.truthy_true; congruence).
      simpl. destruct (decide (v = lv)) as [->|Hv].
      + rewrite bool_decide_eq_false_2 by (by intros []). tauto.
      + rewrite bool_decide_eq_true_2 by done.
        split; [by intros [_ ?]|]. intros [_ [?|?]]; congruence.
    - rewrite bool_decide_eq_true_2 by done. simpl.
      split; [by intros [_ ?]|]. tauto. }
  split; [exact Hmain|]. split.
  - intros Hb. rewrite Hmain, elem_of_get_enabled_mods. tauto.
  - intros g. apply reconcile_files_mono.
Qed.

(** Two artifacts of ["a"] and the latest version 2.0: the stale one goes,
    the current one stays. *)
Lemma retention_invariant_witness :
  let net := Scenario.network_of
               [("a", Scenario.answer [ {[ "version" := "2.0" ]} ])] Complete in
  let ml := Scenario.declaration [Scenario.entry "a" true] in
  ∃ R, reconcile net "user" "token" ml (Some ["a_1.0.zip"; "a_2.0.zip"])
       = Finished R
    ∧ ("a_1.0.zip" ∉ storage R) ∧ ("a_2.0.zip" ∈ storage R).
Proof.
  intros net ml.
  set (R := run_report net "user" "token" ml (Some ["a_1.0.zip"; "a_2.0.zip"])).
  assert (HR : reconcile net "user" "token" ml (Some ["a_1.0.zip"; "a_2.0.zip"])
               = Finished R) by (by vm_compute).
  assert (HL : latest_versions (fetched R) !! "a" = Some "2.0") by (by vm_compute).
  assert (Hen : "a" ∈ get_enabled_mod_names ml) by compute_decision.
  exists R. split; [exact HR|]. split.
  - destruct (retention_invariant net "user" "token" ml
                (Some ["a_1.0.zip"; "a_2.0.zip"]) "a_1.0.zip" "a" "1.0" R HR)
      as (Hiff & _).
    + apply list_elem_of_In. vm_compute. tauto.
    + reflexivity.
    + rewrite HL. discriminate.
    + rewrite Hiff, HL. intros [_ [?|?]]; discriminate.
  - destruct (retention_invariant net "user" "token" ml
                (Some ["a_1.0.zip"; "a_2.0.zip"]) "a_2.0.zip" "a" "2.0" R HR)
      as (Hiff & _).
    + apply list_elem_of_In. vm_compute. tauto.
    + reflexivity.
    + rewrite HL. discriminate.
    + rewrite Hiff, HL. split; [exact Hen|]. by right.
Defined.

(** C1 fails as stated: ["base"] is declared enabled, so [base_2.0.zip]
    is retained, but ["base"] is not in the desired set. *)
Lemma retention_claim_counterexample :
  ¬ retention_claim (Scenario.network_of [] Complete) "user" "token"
      (Scenario.declaration [Scenario.entry "base" true])
      (Some ["base_2.0.zip"]).
Proof.
  intros Hclaim.
  edestruct (λ R HR, Hclaim R HR "base_2.0.zip" "base" "2.0") as [Hdesired _].
  - by vm_compute.
  - apply list_elem_of_In. vm_compute. tauto.
  - reflexivity.
  - destruct Hdesired as [Hin _].
    + apply list_elem_of_In. vm_compute. tauto.
    + apply list_elem_of_In in Hin. vm_compute in Hin. exact Hin.
Qed.

(** ** Running twice (C4) *)

Section Idle.
Variable net : network.
Variables username token : string.

Local Abbreviation step := (iteration net username token).
Local Abbreviation loop := (iterations net username token).
Local Abbreviation downloads_of st :=
  (filter (λ e, is_download e = true) (log st)).

(** An iteration either starts a download, for a selected release whose
    target file is not there, or leaves storage alone. *)
Lemma process_mod_cases (st : run_state) (m : string) :
  (∃ r ok, selected_release net m = Some r
           ∧ (release_filename m r ∉ files st)
           ∧ log (step st m)
             = log st ++ [Downloaded m (release_filename m r) ok])
  ∨ (files (step st m) = files st
     ∧ downloads_of (step st m) = downloads_of st
     ∧ ∀ f, target_file net m = Some f → f ∈ files st).
Proof.
  unfold target_file.
  destruct (selected_release net m) as [r|] eqn:Hsel.
  - destruct (decide (release_filename m r ∈ files st)) as [Hin|Hout].
    + right. rewrite (process_mod_exists net username token st m r Hsel Hin).
      cbn [files log]. rewrite filter_snoc_False by done.
      split; [done|]. split; [done|]. intros f [= <-]. done.
    + left. exists r. unfold iteration, loop_body. unfold selected_release in Hsel.
      destruct (truthy_or_none mod_info_truthy _) as [info|]; [|done].
      rewrite Hsel. unfold path_exists.
      rewrite bool_decide_eq_false_2 by done.
      destruct (download_mod _ _ _ _ _ _ _) as [[] l]; eauto.
  - right.
    destruct (process_mod_none net username token st m Hsel)
      as (_ & Hfiles & _ & [(Hlog & _)|(Hlog & _)]);
      rewrite Hfiles, Hlog, filter_snoc_False by done; done.
Qed.

Lemma process_mods_downloads_prefix (l : list string) (st : run_state) :
  ∃ extra, downloads_of (loop l st) = downloads_of st ++ extra.
Proof.
  revert st. induction l as [|m l IH]; intros st.
  { exists []. simpl. by rewrite app_nil_r. }
  rewrite process_mods_cons. destruct (IH (step st m)) as [extra ->].
  destruct (process_mod_log net username token st m) as (e & -> & _).
  rewrite filter_app, <-app_assoc. eauto.
Qed.

(** The loop starts no download exactly when every target file is there
    at its start. *)
Lemma process_mods_idle_inv (l : list string) (st : run_state) :
  downloads_of (loop l st) = downloads_of st →
  ∀ n f, n ∈ l → target_file net n = Some f → f ∈ files st.
Proof.
  revert st. induction l as [|m l IH]; intros st Hidle n f Hn Ht.
  { by apply not_elem_of_nil in Hn. }
  rewrite process_mods_cons in Hidle.
  destruct (process_mod_cases st m)
    as [(r & ok & _ & _ & Hlog)|(Hfiles & Hdl & Hm)].
  - exfalso.
    destruct (process_mods_downloads_prefix l (step st m)) as [extra Hex].
    rewrite Hex, Hlog, filter_app, filter_cons_True, filter_nil in Hidle by done.
    apply (f_equal length) in Hidle. rewrite !length_app in Hidle.
    simpl in Hidle. lia.
  - apply elem_of_cons in Hn as [->|Hn]; [by apply Hm|].
    rewrite <-Hfiles. eapply (IH (step st m)); [|exact Hn|exact Ht].
    by rewrite Hidle, Hdl.
Qed.

End Idle.

(** C4 on the code.  An item whose selected release has its target file
    in storage is skipped: one more skip, the map entry, no download and
    storage untouched.  The second of two runs starts no download
    exactly when the first run left the target file of every selected
    release in storage; it then deletes nothing either and leaves
    storage as it found it. *)
Theorem second_run_is_idle (net : network) (username token : string)
    (ml : mod_list) (mods_dir : option (list string)) :
  (∀ (st : run_state) (n : string) (r : release),
     selected_release net n = Some r →
     release_filename n r ∈ files st →
     process_mod net username token st n =
       Some {| success_count := success_count st;
               failed_count := failed_count st;
               skipped_count := skipped_count st + 1;
               latest_versions := <[n := release_version r]> (latest_versions st);
               files := files st;
               log := log st ++ [AlreadyExists n (release_filename n r)] |})
  ∧ ∀ R1, reconcile net username token ml mods_dir = Finished R1 →
    ∃ R2, reconcile net username token ml (Some (storage R1)) = Finished R2
      ∧ (downloads R2 = [] ↔
         ∀ n f, n ∈ get_enabled_mods ml → target_file net n = Some f →
                f ∈ storage R1)
      ∧ (downloads R2 = [] →
         deletions R2 = [] ∧ storage R2 = storage R1
         ∧ success_count (fetched R2) = 0).
Proof.
  split.
  { intros st n r Hsel Hin.
    rewrite process_mod_returned by (by eapply selected_release_returned).
    f_equal. by apply process_mod_exists. }
  intros R1' HR1. apply reconcile_finished in HR1 as [Hret ->].
  set (R1 := run_report net username token ml mods_dir).
  set (R2 := run_report net username token ml (Some (storage R1))).
  exists R2. split; [by apply reconcile_finished|].
  assert (Hf2 : fetched R2 = iterations net username token
                  (get_enabled_mods ml) (initial_state (storage R1)))
    by reflexivity.
  assert (Hiff : downloads R2 = [] ↔
                 ∀ n f, n ∈ get_enabled_mods ml → target_file net n = Some f →
                        f ∈ storage R1).
  { unfold downloads. rewrite Hf2. split.
    - intros Hidle n f Hn Ht.
      by apply (process_mods_idle_inv net username token
                  (get_enabled_mods ml) (initial_state (storage R1)) Hidle n f).
    - intros Hall.
      by destruct (process_mods_all_exist net username token
                     (get_enabled_mods ml) (initial_state (storage R1)) Hall)
        as (_ & -> & _). }
  split; [exact Hiff|].
  intros Hidle. pose proof (proj1 Hiff Hidle) as Hall.
  destruct (process_mods_all_exist net username token
              (get_enabled_mods ml) (initial_state (storage R1)) Hall)
    as (Hfiles & _ & Hsucc & _).
  assert (Hfiles2 : files (fetched R2) = storage R1)
    by (rewrite Hf2; exact Hfiles).
  assert (Hlatest : latest_versions (fetched R2) = latest_versions (fetched R1))
    by (rewrite Hf2; apply process_mods_latest_initial).
  assert (Hkept : ∀ f, f ∈ storage R1 →
            gc_deletes (get_enabled_mod_names ml)
              (latest_versions (fetched R1)) f = false).
  { intros f. unfold R1 at 1. rewrite reconcile_storage, elem_of_create.
    rewrite reconcile_cleaned, cleanup_files_elem. fold R1.
    intros [[_ ?]| ->]; [done|]. by vm_compute. }
  assert (Hgc : cleaned R2 =
            {| gc_files := storage R1; deleted_count := 0;
               kept_count := length (filter
                 (λ g, gc_keeps (get_enabled_mod_names ml)
                         (latest_versions (fetched R1)) g = true) (storage R1));
               gc_log := [] |}).
  { unfold R2 at 1. rewrite reconcile_cleaned. fold R2.
    rewrite Hfiles2, Hlatest. by apply cleanup_files_fixpoint. }
  split; [|split].
  - unfold deletions. by rewrite Hgc.
  - unfold R2 at 1. rewrite reconcile_storage. fold R2. rewrite Hgc.
    cbn [gc_files]. apply create_present.
    unfold R1. rewrite reconcile_storage. apply elem_of_create. by right.
  - rewrite Hf2. exact Hsucc.
Qed.

(** ["a"] is fetched by the first run; the second run finds it and does
    nothing. *)
Lemma second_run_is_idle_witness :
  let net := Scenario.network_of
               [("a", Scenario.answer
                        [ {[ "version" := "1.0"; "download_url" := "/download/a";
                             "file_name" := "a_1.0.zip" ]} ])] Complete in
  let ml := Scenario.declaration [Scenario.entry "a" true] in
  ∃ R1 R2,
    reconcile net "user" "token" ml None = Finished R1
    ∧ reconcile net "user" "token" ml (Some (storage R1)) = Finished R2
    ∧ downloads R1 = [Downloaded "a" "a_1.0.zip" true]
    ∧ downloads R2 = [] ∧ deletions R2 = [] ∧ storage R2 = storage R1.
Proof.
  intros net ml.
  set (R1 := run_report net "user" "token" ml None).
  assert (HR1 : reconcile net "user" "token" ml None = Finished R1)
    by (by vm_compute).
  destruct (second_run_is_idle net "user" "token" ml None) as (_ & Hrun).
  destruct (Hrun R1 HR1) as (R2 & HR2 & Hiff & Hidle).
  exists R1, R2. split; [exact HR1|]. split; [exact HR2|].
  assert (Hnone : downloads R2 = []).
  { apply Hiff. intros n f Hn Ht.
    apply list_elem_of_In in Hn. vm_compute in Hn. destruct Hn as [<-|[]].
    vm_compute in Ht. injection Ht as <-.
    apply list_elem_of_In. vm_compute. tauto. }
  destruct (Hidle Hnone) as (Hdel & Hsto & _).
  split; [by vm_compute|]. split; [exact Hnone|]. split; [exact Hdel|exact Hsto].
Defined.

(** C4 fails as stated.  The catalog names the file of release 1.0 of
    ["a"] [a_1.0.0.zip]: each run fetches the file and then deletes it as
    outdated, because its name parses to version 1.0.0. *)
Lemma idempotence_claim_counterexample :
  ¬ idempotence_claim
      (Scenario.network_of
         [("a", Scenario.answer
                  [ {[ "version" := "1.0"; "download_url" := "/download/a";
                       "file_name" := "a_1.0.0.zip" ]} ])] Complete)
      "user" "token"
      (Scenario.declaration [Scenario.entry "a" true])
      None.
Proof.
  intros Hclaim.
  edestruct Hclaim as [Hdownloads _]; [by vm_compute|by vm_compute|].
  vm_compute in Hdownloads. discriminate.
Qed.

(** What the second run does at that input. *)
Remark second_run_refetches_deleted_file :
  let net := Scenario.network_of
               [("a", Scenario.answer
                        [ {[ "version" := "1.0"; "download_url" := "/download/a";
                             "file_name" := "a_1.0.0.zip" ]} ])] Complete in
  let ml := Scenario.declaration [Scenario.entry "a" true] in
  ∃ R1 R2,
    reconcile net "user" "token" ml None = Finished R1
    ∧ reconcile net "user" "token" ml (Some (storage R1)) = Finished R2
    ∧ storage R1 = ["mod-list.json"]
    ∧ downloads R2 = [Downloaded "a" "a_1.0.0.zip" true]
    ∧ deletions R2 = [DeletedOutdated "a_1.0.0.zip" "1.0"].
Proof.
  intros net ml. do 2 eexists.
  split; [by vm_compute|]. split; [by vm_compute|]. by vm_compute.
Qed.

(** A fetch that fails before the file is opened is tried again by the
    next run: the second run is the retry. *)
Remark second_run_retries_failed_fetch :
  let net := Scenario.network_of
               [("a", Scenario.answer
                        [ {[ "version" := "1.0"; "download_url" := "/download/a";
                             "file_name" := "a_1.0.zip" ]} ])] FailedBeforeOpen in
  let ml := Scenario.declaration [Scenario.entry "a" true] in
  ∃ R1 R2,
    reconcile net "user" "token" ml None = Finished R1
    ∧ reconcile net "user" "token" ml (Some (storage R1)) = Finished R2
    ∧ downloads R1 = [Downloaded "a" "a_1.0.zip" false]
    ∧ downloads R2 = [Downloaded "a" "a_1.0.zip" false]
    ∧ failed_count (fetched R2) = 1.
Proof.
  intros net ml. do 2 eexists.
  split; [by vm_compute|]. split; [by vm_compute|]. by vm_compute.
Qed.

(** * Further properties of the code *)

(** ** Resolver and state writer *)

(** X1.  The desired sequence is the sequence of the names of the
    declared entries that are enabled and not base game mods, in
    declaration order and one item per such entry: a name declared by
    [k] such entries occurs [k] times.  It is a subsequence of the
    declared names, and as a set it is the enabled-name set without the
    base game mods. *)
Theorem desired_sequence_of_declaration (ml : mod_list) :
  get_enabled_mods ml
  = entry_get_name <$>
      filter (λ entry, entry_get_enabled entry = true
                       ∧ entry_get_name entry ∉ BASE_GAME_MODS) (get_mods ml)
  ∧ (∀ n : string,
       length (filter (λ m, m = n) (get_enabled_mods ml))
       = length (filter (λ entry, (entry_get_enabled entry = true
                                   ∧ entry_get_name entry ∉ BASE_GAME_MODS)
                                  ∧ entry_get_name entry = n) (get_mods ml)))
  ∧ get_enabled_mods ml `sublist_of` (entry_get_name <$> get_mods ml)
  ∧ list_to_set (get_enabled_mods ml)
    = get_enabled_mod_names ml ∖ BASE_GAME_MODS.
Proof.
  split; [|split; [|split]].
  - apply get_enabled_mods_spec.
  - intros n. rewrite get_enabled_mods_spec.
    change (λ entry, entry_get_enabled entry = true
                     ∧ entry_get_name entry ∉ BASE_GAME_MODS) with wanted.
    induction (get_mods ml) as [|e l IH]; [done|].
    rewrite !filter_cons. destruct (decide (wanted e)) as [Hw|Hw].
    + rewrite fmap_cons, filter_cons.
      destruct (decide (entry_get_name e = n)) as [He|He].
      * rewrite decide_True by done. simpl. by rewrite IH.
      * rewrite decide_False by (by intros [_ ?]). exact IH.
    + rewrite decide_False by (by intros [? _]). exact IH.
  - rewrite get_enabled_mods_spec. apply fmap_sublist, sublist_filter.
  - apply set_eq. intros n.
    rewrite elem_of_list_to_set, elem_of_difference.
    apply elem_of_get_enabled_mods.
Qed.

(** X2.  The filtered document read back as a declaration gives the
    same desired sequence, the same enabled-name set and the same
    filtered document: filtering is idempotent and loses nothing the
    run reads. *)
Theorem filtered_document_reads_the_same (ml : mod_list) :
  resolve (write_filtered_mod_list ml) = resolve ml.
Proof.
  assert (Hfix : filter (λ entry, entry_get_enabled entry = true)
                   (filter (λ entry, entry_get_enabled entry = true) (get_mods ml))
                 = filter (λ entry, entry_get_enabled entry = true) (get_mods ml)).
  { apply filter_all. by intros e [? _]%list_elem_of_filter. }
  unfold resolve, get_enabled_mod_names, write_filtered_mod_list.
  rewrite !get_enabled_mods_spec. unfold get_mods at 1 3 5. simpl.
  rewrite Hfix. f_equal. f_equal. f_equal.
  rewrite list_filter_filter. apply list_filter_iff.
  intros e. unfold wanted. tauto.
Qed.

(** ** [parse_mod_filename] *)

(** X3.  Two file names that parse to the same name and version are the
    same file name. *)
Theorem parse_mod_filename_inj (f g : string) (p : string * string) :
  parse_mod_filename f = Some p → parse_mod_filename g = Some p → f = g.
Proof.
  destruct p as [n v]. intros Hf Hg.
  apply parse_mod_filename_Some in Hf as [-> _].
  by apply parse_mod_filename_Some in Hg as [-> _].
Qed.

Lemma parse_mod_filename_inj_witness : "a_1.0.zip" = "a_1.0.zip".
Proof.
  apply (parse_mod_filename_inj "a_1.0.zip" "a_1.0.zip" ("a", "1.0"));
    reflexivity.
Defined.

(** ** [cleanup_old_mods] *)

(** X4.  Garbage collection only removes: what is left is a subsequence
    of the listing, the files reported as deleted and the files left
    are together the listing, every deletion is reported and counted
    once, and a listing without repetition stays so. *)
Theorem cleanup_accounts_for_every_file (E : gset string)
    (L : gmap string string) (dir : list string) :
  let gc := cleanup_files E L dir in
  gc_files gc `sublist_of` dir
  ∧ omap deleted_file (gc_log gc) ++ gc_files gc ≡ₚ dir
  ∧ deleted_count gc = length (gc_log gc)
  ∧ deleted_count gc + length (gc_files gc) = length dir
  ∧ (NoDup dir → NoDup (gc_files gc)).
Proof.
  cbv zeta. rewrite cleanup_files_spec. cbn [gc_files gc_log deleted_count].
  assert (Hlog : omap deleted_file
                   (gc_event E L <$> filter (λ g, gc_deletes E L g = true) dir)
                 = filter (λ g, gc_deletes E L g = true) dir).
  { induction (filter (λ g, gc_deletes E L g = true) dir) as [|g l IH]; [done|].
    csimpl. rewrite deleted_file_gc_event. by rewrite IH. }
  assert (Hperm : filter (λ g, gc_deletes E L g = true) dir
                  ++ filter (λ g, gc_deletes E L g = false) dir ≡ₚ dir).
  { rewrite <-(filter_app_complement (λ g, gc_deletes E L g = true) dir) at 3.
    f_equiv. apply reflexive_eq, list_filter_iff.
    intros g. by destruct (gc_deletes E L g). }
  split; [apply sublist_filter|]. split; [by rewrite Hlog|].
  split; [by rewrite length_fmap|]. split.
  - rewrite <-(Permutation_length Hperm), length_app. done.
  - intros Hnd. by apply NoDup_filter.
Qed.

(** X5.  Garbage collection is idempotent: run again on what it left,
    with the same set and map, it deletes nothing, leaves the directory
    as it is and counts the same files as kept. *)
Theorem cleanup_is_idempotent (E : gset string) (L : gmap string string)
    (dir : list string) :
  let gc := cleanup_files E L dir in
  cleanup_files E L (gc_files gc) =
    {| gc_files := gc_files gc; deleted_count := 0;
       kept_count := kept_count gc; gc_log := [] |}.
Proof.
  cbv zeta. rewrite cleanup_files_fixpoint.
  - f_equal. rewrite cleanup_files_spec. cbn [gc_files kept_count].
    rewrite list_filter_filter. f_equal. apply list_filter_iff.
    intros g. split; [by intros []|]. intros Hk. split; [done|].
    destruct (gc_cases E L g) as [(_ & _ & ?)|[(_ & ?)|(? & _)]]; congruence.
  - intros f [_ ?]%cleanup_files_elem. done.
Qed.

(** X6.  The order in which the directory is listed does not matter to
    garbage collection: for two listings of the same files the counters
    agree and the files left and the deletions reported are the same up
    to order. *)
Theorem cleanup_ignores_listing_order (E : gset string)
    (L : gmap string string) (dir dir' : list string) :
  dir ≡ₚ dir' →
  gc_files (cleanup_files E L dir) ≡ₚ gc_files (cleanup_files E L dir')
  ∧ gc_log (cleanup_files E L dir) ≡ₚ gc_log (cleanup_files E L dir')
  ∧ deleted_count (cleanup_files E L dir) = deleted_count (cleanup_files E L dir')
  ∧ kept_count (cleanup_files E L dir) = kept_count (cleanup_files E L dir').
Proof.
  intros Hperm. rewrite !cleanup_files_spec.
  cbn [gc_files gc_log deleted_count kept_count].
  repeat split; by rewrite Hperm.
Qed.

Lemma cleanup_ignores_listing_order_witness :
  kept_count (cleanup_files {[ "a" ]} {[ "a" := "2.0" ]} ["a_1.0.zip"; "a_2.0.zip"])
  = kept_count (cleanup_files {[ "a" ]} {[ "a" := "2.0" ]} ["a_2.0.zip"; "a_1.0.zip"]).
Proof.
  apply (cleanup_ignores_listing_order {[ "a" ]} {[ "a" := "2.0" ]}
           ["a_1.0.zip"; "a_2.0.zip"] ["a_2.0.zip"; "a_1.0.zip"]).
  apply Permutation_swap.
Defined.

(** ** The map of latest versions *)

(** X7.  After the loop the map holds exactly the desired names for
    which a release was selected, each with the version of that release;
    in particular no name whose lookup failed and no base game mod. *)
Theorem latest_versions_of_run (net : network) (username token : string)
    (ml : mod_list) (mods_dir : option (list string)) (n v : string) :
  ∀ R, reconcile net username token ml mods_dir = Finished R →
  (latest_versions (fetched R) !! n = Some v ↔
   n ∈ get_enabled_mods ml
   ∧ ∃ r, selected_release net n = Some r ∧ release_version r = v)
  ∧ (n ∈ BASE_GAME_MODS → latest_versions (fetched R) !! n = None)
  ∧ (selected_release net n = None → latest_versions (fetched R) !! n = None).
Proof.
  to_report.
  cbv zeta. rewrite reconcile_latest. split; [|split].
  - destruct (selected_release net n) as [r|].
    + case_bool_decide as Hin.
      * split; [intros [= <-]; eauto|].
        by intros (_ & r' & [= <-] & <-).
      * split; [done|]. by intros [? _].
    + split; [done|]. by intros (_ & r & ? & _).
  - intros Hb. destruct (selected_release net n) as [r|]; [|done].
    rewrite bool_decide_eq_false_2; [done|].
    rewrite elem_of_get_enabled_mods. tauto.
  - by intros ->.
Qed.

(** ["a"] has a release, ["c"] is not in the catalog, ["base"] is a base
    game mod. *)
Lemma latest_versions_of_run_witness :
  let net := Scenario.network_of
               [("a", Scenario.answer [ {[ "version" := "1.0" ]} ])] Complete in
  let ml := Scenario.declaration
              [Scenario.entry "a" true; Scenario.entry "base" true;
               Scenario.entry "c" true] in
  ∃ R, reconcile net "user" "token" ml None = Finished R
    ∧ latest_versions (fetched R) !! "a" = Some "1.0"
    ∧ latest_versions (fetched R) !! "base" = None
    ∧ latest_versions (fetched R) !! "c" = None.
Proof.
  intros net ml.
  set (R := run_report net "user" "token" ml None).
  assert (HR : reconcile net "user" "token" ml None = Finished R)
    by (by vm_compute).
  exists R. split; [exact HR|].
  destruct (latest_versions_of_run net "user" "token" ml None "a" "1.0" R HR)
    as (Ha & _ & _).
  destruct (latest_versions_of_run net "user" "token" ml None "base" "" R HR)
    as (_ & Hbase & _).
  destruct (latest_versions_of_run net "user" "token" ml None "c" "" R HR)
    as (_ & _ & Hc).
  split; [|split].
  - apply Ha. split.
    + apply list_elem_of_In. vm_compute. tauto.
    + exists {[ "version" := "1.0" ]}. split; by vm_compute.
  - apply Hbase. compute_decision.
  - apply Hc. by vm_compute.
Defined.

(** X8.  The map after the loop does not depend on the order of the
    desired items, nor on what is in storage. *)
Theorem latest_versions_ignore_order (net : network) (username token : string)
    (l l' : list string) (st st' st1 st1' : run_state) :
  l ≡ₚ l' →
  latest_versions st = latest_versions st' →
  process_mods net username token l st = Completed st1 →
  process_mods net username token l' st' = Completed st1' →
  latest_versions st1 = latest_versions st1'.
Proof.
  intros Hperm Hst [_ ->]%process_mods_completed [_ ->]%process_mods_completed.
  apply map_eq. intros n.
  rewrite !process_mods_latest, Hst.
  destruct (selected_release net n) as [r|]; [|done].
  assert (bool_decide (n ∈ l) = bool_decide (n ∈ l')) as ->; [|done].
  apply bool_decide_ext. by rewrite Hperm.
Qed.

Lemma latest_versions_ignore_order_witness :
  let net := Scenario.network_of
               [("a", Scenario.answer [ {[ "version" := "1.0" ]} ]);
                ("b", Scenario.answer [ {[ "version" := "2.0" ]} ])] Complete in
  ∃ st1 st1',
    process_mods net "user" "token" ["a"; "b"] (initial_state [])
    = Completed st1
    ∧ process_mods net "user" "token" ["b"; "a"] (initial_state ["b_2.0.zip"])
      = Completed st1'
    ∧ latest_versions st1 = latest_versions st1'.
Proof.
  intros net. do 2 eexists.
  split; [by vm_compute|]. split; [by vm_compute|].
  eapply (latest_versions_ignore_order net "user" "token" ["a"; "b"] ["b"; "a"]
            (initial_state []) (initial_state ["b_2.0.zip"])).
  - apply Permutation_swap.
  - reflexivity.
  - by vm_compute.
  - by vm_compute.
Defined.

(** ** What a run does to storage *)

(** X9.  A run never removes a file whose name does not parse, whatever
    its suffix, and always leaves [mod-list.json] in the directory. *)
Theorem run_keeps_unparsed_files (net : network) (username token : string)
    (ml : mod_list) (mods_dir : option (list string)) (f : string) :
  ∀ R, reconcile net username token ml mods_dir = Finished R →
  "mod-list.json" ∈ storage R
  ∧ (f ∈ default [] mods_dir → parse_mod_filename f = None → f ∈ storage R).
Proof.
  to_report.
  cbv zeta. rewrite reconcile_storage. split.
  - apply elem_of_create. by right.
  - intros Hf Hp. apply elem_of_create. left.
    rewrite reconcile_cleaned. apply cleanup_files_elem. split.
    + by apply reconcile_files_mono.
    + unfold gc_deletes. by rewrite Hp.
Qed.

Lemma run_keeps_unparsed_files_witness :
  ∃ R, reconcile (Scenario.network_of [] Complete) "user" "token"
         (Scenario.declaration []) (Some ["notes.txt"; "a_1.0.zip"])
       = Finished R
    ∧ "notes.txt" ∈ storage R.
Proof.
  eexists. split; [by vm_compute|].
  eapply (run_keeps_unparsed_files (Scenario.network_of [] Complete)
            "user" "token" (Scenario.declaration [])
            (Some ["notes.txt"; "a_1.0.zip"]) "notes.txt").
  - by vm_compute.
  - apply list_elem_of_In. simpl. tauto.
  - reflexivity.
Defined.

(** X10.  Every file in the directory after a run was there before the
    run, or is the target file of a desired item with a selected
    release, or is [mod-list.json]: a run creates nothing else. *)
Theorem run_creates_only_targets (net : network) (username token : string)
    (ml : mod_list) (mods_dir : option (list string)) (f : string) :
  ∀ R, reconcile net username token ml mods_dir = Finished R →
  f ∈ storage R →
  f ∈ default [] mods_dir
  ∨ f = "mod-list.json"
  ∨ ∃ n, n ∈ get_enabled_mods ml ∧ target_file net n = Some f.
Proof.
  to_report.
  rewrite reconcile_storage, elem_of_create, reconcile_cleaned,
    cleanup_files_elem, reconcile_fetched.
  intros [[Hf _]| ->]; [|by auto].
  apply process_mods_files_new in Hf as [Hf|Hn]; auto.
Qed.

Lemma run_creates_only_targets_witness :
  let net := Scenario.network_of
               [("a", Scenario.answer [ {[ "version" := "1.0" ]} ])] Complete in
  "a_1.0.zip" ∈ default [] (None : option (list string))
  ∨ "a_1.0.zip" = "mod-list.json"
  ∨ ∃ n, n ∈ get_enabled_mods (Scenario.declaration [Scenario.entry "a" true])
         ∧ target_file net n = Some "a_1.0.zip".
Proof.
  intros net.
  eapply (run_creates_only_targets net "user" "token"
            (Scenario.declaration [Scenario.entry "a" true]) None "a_1.0.zip").
  - by vm_compute.
  - apply list_elem_of_In. vm_compute. tauto.
Defined.

(** X11.  The artifacts of a name that no declared entry enables are all
    deleted, whatever their version and whatever the catalog says. *)
Theorem run_purges_disabled_names (net : network) (username token : string)
    (ml : mod_list) (mods_dir : option (list string)) (f n v : string) :
  n ∉ get_enabled_mod_names ml →
  f ∈ default [] mods_dir →
  parse_mod_filename f = Some (n, v) →
  ∀ R, reconcile net username token ml mods_dir = Finished R →
  (f ∉ storage R) ∧ (DeletedDisabled f ∈ deletions R).
Proof.
  to_report.
  intros Hn Hf Hp. cbv zeta.
  assert (Hdel : gc_deletes (get_enabled_mod_names ml)
            (latest_versions (fetched (run_report net username token ml mods_dir)))
            f = true).
  { unfold gc_deletes. rewrite Hp. by rewrite bool_decide_eq_true_2. }
  split.
  - rewrite (reconcile_storage_parsed _ _ _ _ _ f n v Hp). intros [_ ?].
    congruence.
  - rewrite reconcile_deletions. apply list_elem_of_fmap. exists f. split.
    + unfold gc_event. rewrite Hp. by rewrite bool_decide_eq_true_2.
    + apply list_elem_of_filter. split; [done|]. by apply reconcile_files_mono.
Qed.

Lemma run_purges_disabled_names_witness :
  ∃ R, reconcile (Scenario.network_of [] Complete) "user" "token"
         (Scenario.declaration [Scenario.entry "b" false])
         (Some ["b_2.0.0.zip"]) = Finished R
    ∧ ("b_2.0.0.zip" ∉ storage R)
    ∧ (DeletedDisabled "b_2.0.0.zip" ∈ deletions R).
Proof.
  eexists. split; [by vm_compute|].
  eapply (run_purges_disabled_names (Scenario.network_of [] Complete)
            "user" "token" (Scenario.declaration [Scenario.entry "b" false])
            (Some ["b_2.0.0.zip"]) "b_2.0.0.zip" "b" "2.0.0").
  - compute_decision.
  - apply list_elem_of_In. simpl. tauto.
  - reflexivity.
  - by vm_compute.
Defined.

(** X12.  When no release is selected for an enabled name, because the
    lookup failed, the catalog has no release, or the name is a base
    game mod, none of its artifacts is deleted. *)
Theorem run_keeps_unresolved_names (net : network) (username token : string)
    (ml : mod_list) (mods_dir : option (list string)) (f n v : string) :
  n ∈ get_enabled_mod_names ml →
  selected_release net n = None ∨ n ∈ BASE_GAME_MODS →
  f ∈ default [] mods_dir →
  parse_mod_filename f = Some (n, v) →
  ∀ R, reconcile net username token ml mods_dir = Finished R →
  f ∈ storage R ∧ ¬ deletes_file R f.
Proof.
  to_report.
  intros Hn Hnone Hf Hp. cbv zeta.
  assert (Hlatest : latest_versions
            (fetched (run_report net username token ml mods_dir)) !! n = None).
  { rewrite reconcile_latest. destruct Hnone as [->|Hb]; [done|].
    destruct (selected_release net n); [|done].
    rewrite bool_decide_eq_false_2; [done|].
    rewrite elem_of_get_enabled_mods. tauto. }
  assert (Hkeep : gc_deletes (get_enabled_mod_names ml)
            (latest_versions (fetched (run_report net username token ml mods_dir)))
            f = false).
  { unfold gc_deletes. rewrite Hp, Hlatest.
    by rewrite bool_decide_eq_false_2 by (by intros []). }
  split.
  - rewrite (reconcile_storage_parsed _ _ _ _ _ f n v Hp).
    split; [by apply reconcile_files_mono|done].
  - rewrite deletes_file_iff. intros [_ ?]. congruence.
Qed.

Lemma run_keeps_unresolved_names_witness :
  ∃ R, reconcile (Scenario.network_of [] Complete) "user" "token"
         (Scenario.declaration [Scenario.entry "a" true])
         (Some ["a_1.0.zip"]) = Finished R
    ∧ "a_1.0.zip" ∈ storage R ∧ ¬ deletes_file R "a_1.0.zip".
Proof.
  eexists. split; [by vm_compute|].
  eapply (run_keeps_unresolved_names (Scenario.network_of [] Complete)
            "user" "token" (Scenario.declaration [Scenario.entry "a" true])
            (Some ["a_1.0.zip"]) "a_1.0.zip" "a" "1.0").
  - compute_decision.
  - left. reflexivity.
  - apply list_elem_of_In. simpl. tauto.
  - reflexivity.
  - by vm_compute.
Defined.

(** X13.  After a run, a name with a non-empty recorded version has at
    most one artifact left, and it carries the recorded version. *)
Theorem run_leaves_one_version (net : network) (username token : string)
    (ml : mod_list) (mods_dir : option (list string))
    (f g n v w lv : string) :
  ∀ R, reconcile net username token ml mods_dir = Finished R →
  latest_versions (fetched R) !! n = Some lv →
  lv ≠ "" →
  f ∈ storage R → parse_mod_filename f = Some (n, v) →
  g ∈ storage R → parse_mod_filename g = Some (n, w) →
  v = lv ∧ f = g.
Proof.
  to_report.
  cbv zeta. intros HL Hlv Hf Hpf Hg Hpg.
  assert (Hver : ∀ h u, h ∈ storage (run_report net username token ml mods_dir) →
            parse_mod_filename h = Some (n, u) → u = lv).
  { intros h u Hh Hp.
    apply (reconcile_storage_parsed _ _ _ _ _ h n u Hp) in Hh as [_ Hkeep].
    unfold gc_deletes in Hkeep. rewrite Hp, HL in Hkeep.
    apply orb_false_iff in Hkeep as [_ Hout]. simpl in Hout.
    apply PyStrFacts.truthy_true in Hlv. rewrite Hlv in Hout. simpl in Hout.
    apply bool_decide_eq_false in Hout. by destruct (decide (u = lv)). }
  pose proof (Hver f v Hf Hpf) as ->. pose proof (Hver g w Hg Hpg) as ->.
  split; [done|].
  apply parse_mod_filename_Some in Hpf as [-> _].
  by apply parse_mod_filename_Some in Hpg as [-> _].
Qed.

Lemma run_leaves_one_version_witness :
  let net := Scenario.network_of
               [("a", Scenario.answer [ {[ "version" := "2.0" ]} ])] Complete in
  "2.0" = "2.0" ∧ "a_2.0.zip" = "a_2.0.zip".
Proof.
  intros net.
  eapply (run_leaves_one_version net "user" "token"
            (Scenario.declaration [Scenario.entry "a" true])
            (Some ["a_1.0.zip"; "a_2.0.zip"])
            "a_2.0.zip" "a_2.0.zip" "a" "2.0" "2.0" "2.0").
  - by vm_compute.
  - by vm_compute.
  - discriminate.
  - apply list_elem_of_In. vm_compute. tauto.
  - reflexivity.
  - apply list_elem_of_In. vm_compute. tauto.
  - reflexivity.
Defined.

(** ** The loop, item by item *)

Section Outcome.
Variable net : network.
Variables username token : string.

Local Abbreviation step := (iteration net username token).
Local Abbreviation loop := (iterations net username token).

(** The iteration for a selected release whose target file is missing:
    [download_mod] is called, and its result decides the counter. *)
Lemma process_mod_download (st : run_state) (n : string) (r : release) :
  selected_release net n = Some r →
  release_filename n r ∉ files st →
  let d := download_mod net n (release_download_url r) (release_filename n r)
             username token (files st) in
  step st n =
    {| success_count := success_count st + (if d.1 then 1 else 0);
       failed_count := failed_count st + (if d.1 then 0 else 1);
       skipped_count := skipped_count st;
       latest_versions := <[n := release_version r]> (latest_versions st);
       files := d.2;
       log := log st ++ [Downloaded n (release_filename n r) d.1] |}.
Proof.
  intros Hsel Hout. cbv zeta. unfold iteration, loop_body.
  unfold selected_release in Hsel.
  destruct (truthy_or_none mod_info_truthy _) as [info|]; [|done].
  rewrite Hsel. unfold path_exists. rewrite bool_decide_eq_false_2 by done.
  destruct (download_mod _ _ _ _ _ _ _) as [[] l]; simpl; f_equal; lia.
Qed.

(** After its iteration, the target file of an item is in storage
    unless the transfer failed before the file was opened. *)
Lemma process_mod_target_present (st : run_state) (n : string) (r : release) :
  selected_release net n = Some r →
  download_get net (transfer_url username token r) ≠ FailedBeforeOpen →
  release_filename n r ∈ files (step st n).
Proof.
  intros Hsel Hnet.
  destruct (decide (release_filename n r ∈ files st)) as [Hin|Hout].
  - by rewrite (process_mod_exists net username token st n r Hsel Hin).
  - rewrite (process_mod_download st n r Hsel Hout). cbn [files].
    unfold download_mod. unfold transfer_url in Hnet.
    destruct (download_get net _); [|done|]; apply elem_of_create; by right.
Qed.

Lemma process_mods_target_present (l : list string) (st : run_state)
    (n : string) (r : release) :
  n ∈ l →
  selected_release net n = Some r →
  download_get net (transfer_url username token r) ≠ FailedBeforeOpen →
  release_filename n r ∈ files (loop l st).
Proof.
  revert st. induction l as [|m l IH]; intros st Hn Hsel Hnet.
  { by apply not_elem_of_nil in Hn. }
  rewrite process_mods_cons.
  apply elem_of_cons in Hn as [->|Hn]; [|by apply IH].
  by apply process_mods_files_mono, process_mod_target_present.
Qed.

Lemma process_mod_failed_mono (st : run_state) (n : string) :
  failed_count st ≤ failed_count (step st n).
Proof.
  destruct (process_mod_log net username token st n) as (e & _ & _ & -> & _).
  lia.
Qed.

Lemma process_mods_failed_mono (l : list string) (st : run_state) :
  failed_count st ≤ failed_count (loop l st).
Proof.
  revert st. induction l as [|m l IH]; intros st; [done|].
  rewrite process_mods_cons. etrans; [apply (process_mod_failed_mono st m)|].
  apply IH.
Qed.

(** An iteration that does not count a failure had a lookup that
    answered, and leaves the target file of its item in storage. *)
Lemma process_mod_no_failure (st : run_state) (n : string) :
  failed_count (step st n) = failed_count st →
  is_Some (truthy_or_none mod_info_truthy (answer_of net n))
  ∧ ∀ f, target_file net n = Some f → f ∈ files (step st n).
Proof.
  intros Hfail. unfold target_file.
  destruct (selected_release net n) as [r|] eqn:Hsel.
  - split.
    + unfold selected_release in Hsel.
      by destruct (truthy_or_none mod_info_truthy _).
    + intros f [= <-].
      destruct (decide (release_filename n r ∈ files st)) as [Hin|Hout].
      * by rewrite (process_mod_exists net username token st n r Hsel Hin).
      * rewrite (process_mod_download st n r Hsel Hout) in Hfail |- *.
        cbn [files failed_count] in *.
        pose proof (download_mod_ok net username token n
                      (release_download_url r) (release_filename n r) (files st))
          as Hok.
        destruct (download_mod _ _ _ _ _ _ _).1; [|lia].
        rewrite Hok by done. apply elem_of_create. by right.
  - split; [|done].
    destruct (process_mod_none net username token st n Hsel)
      as (_ & _ & _ & [(_ & Hf & _)|(Hlog & _)]); [lia|].
    unfold iteration, loop_body in Hlog.
    destruct (truthy_or_none mod_info_truthy _) as [info|]; [done|].
    simpl in Hlog. apply app_inv_head in Hlog. discriminate.
Qed.

Lemma process_mods_no_failure (l : list string) (st : run_state) :
  failed_count (loop l st) = failed_count st →
  ∀ n, n ∈ l →
    is_Some (truthy_or_none mod_info_truthy (answer_of net n))
    ∧ ∀ f, target_file net n = Some f → f ∈ files (loop l st).
Proof.
  revert st. induction l as [|m l IH]; intros st Hfail n Hn.
  { by apply not_elem_of_nil in Hn. }
  rewrite process_mods_cons in Hfail |- *.
  pose proof (process_mod_failed_mono st m) as H1.
  pose proof (process_mods_failed_mono l (step st m)) as H2.
  apply elem_of_cons in Hn as [->|Hn].
  - destruct (process_mod_no_failure st m) as [Hlook Hfile]; [lia|].
    split; [done|]. intros f Hf. by apply process_mods_files_mono, Hfile.
  - apply IH; [lia|done].
Qed.

(** While the target file of an item is in storage, the loop reports
    the item as already there and starts no download for it. *)
Lemma process_mods_present_skipped (l : list string) (st : run_state)
    (n : string) (r : release) (e : event) :
  selected_release net n = Some r →
  release_filename n r ∈ files st →
  e ∈ log (loop l st) → event_mod e = Some n →
  e ∈ log st ∨ e = AlreadyExists n (release_filename n r).
Proof.
  intros Hsel. revert st. induction l as [|m l IH]; intros st Hin He Hn.
  { by left. }
  rewrite process_mods_cons in He.
  destruct (IH (step st m)) as [Hold| ->]; [|done|done| |by right].
  { by apply process_mod_files_mono. }
  destruct (decide (m = n)) as [->|Hne].
  - rewrite (process_mod_exists net username token st n r Hsel Hin) in Hold.
    cbn [log] in Hold. apply elem_of_app in Hold as [?|Hnew]; [by left|].
    right. by apply list_elem_of_singleton in Hnew.
  - destruct (process_mod_log net username token st m)
      as (e' & Hlog & Hm & _).
    rewrite Hlog in Hold. apply elem_of_app in Hold as [?|Hnew]; [by left|].
    apply list_elem_of_singleton in Hnew as ->. congruence.
Qed.

(** The counters of completed downloads and of skipped items. *)
Lemma process_mods_counters (l : list string) (st : run_state) :
  success_count st = length (filter (λ e, is_fetched e = true) (log st)) →
  skipped_count st = length (filter (λ e, is_skipped e = true) (log st)) →
  success_count (loop l st)
  = length (filter (λ e, is_fetched e = true) (log (loop l st)))
  ∧ skipped_count (loop l st)
    = length (filter (λ e, is_skipped e = true) (log (loop l st))).
Proof.
  revert st. induction l as [|m l IH]; intros st Hs Hk; [done|].
  rewrite process_mods_cons. apply IH.
  - destruct (selected_release net m) as [r|] eqn:Hsel.
    + destruct (decide (release_filename m r ∈ files st)) as [Hin|Hout].
      * rewrite (process_mod_exists net username token st m r Hsel Hin).
        cbn [success_count log]. by rewrite filter_snoc_False.
      * rewrite (process_mod_download st m r Hsel Hout).
        cbn [success_count log]. rewrite filter_app, length_app, Hs.
        by destruct (download_mod _ _ _ _ _ _ _).1.
    + destruct (process_mod_none net username token st m Hsel)
        as (_ & _ & -> & [(-> & _)|(-> & _)]); by rewrite filter_snoc_False.
  - destruct (selected_release net m) as [r|] eqn:Hsel.
    + destruct (decide (release_filename m r ∈ files st)) as [Hin|Hout].
      * rewrite (process_mod_exists net username token st m r Hsel Hin).
        cbn [skipped_count log]. rewrite filter_app, length_app, Hk. done.
      * rewrite (process_mod_download st m r Hsel Hout).
        cbn [skipped_count log]. by rewrite filter_snoc_False.
    + destruct (process_mod_none net username token st m Hsel)
        as (_ & _ & _ & [(-> & _ & ->)|(-> & _ & ->)]).
      * by rewrite filter_snoc_False.
      * rewrite filter_app, length_app, Hk. done.
Qed.

End Outcome.

(** X14.  The counters of the summary count the report: one completed
    download per success, one skipped item per line "no releases" or
    "already exists", and the three counters together count the desired
    items. *)
Theorem counters_count_the_report (net : network) (username token : string)
    (ml : mod_list) (mods_dir : option (list string)) :
  ∀ R, reconcile net username token ml mods_dir = Finished R →
  let st := fetched R in
  success_count st = length (filter (λ e, is_fetched e = true) (log st))
  ∧ skipped_count st = length (filter (λ e, is_skipped e = true) (log st))
  ∧ failed_count st = length (filter (λ e, is_failure e = true) (log st))
  ∧ success_count st + skipped_count st + failed_count st
    = length (get_enabled_mods ml).
Proof.
  to_report.
  cbv zeta.
  destruct (reconcile_well_counted net username token ml mods_dir) as [Hf Ht].
  rewrite reconcile_fetched in *.
  destruct (process_mods_counters net username token (get_enabled_mods ml)
              (initial_state (default [] mods_dir))) as [Hs Hk]; [done|done|].
  split; [done|]. split; [done|]. split; [done|].
  rewrite process_mods_log_length in Ht. simpl in Ht. lia.
Qed.

(** One download, one failed lookup and one skip for three items. *)
Lemma counters_count_the_report_witness :
  let net := Scenario.network_of
               [("a", Scenario.answer [ {[ "version" := "1.0" ]} ]);
                ("b", Scenario.answer [])] Complete in
  let ml := Scenario.declaration
              [Scenario.entry "a" true; Scenario.entry "b" true;
               Scenario.entry "c" true] in
  ∃ R, reconcile net "user" "token" ml None = Finished R
    ∧ success_count (fetched R) = 1
    ∧ skipped_count (fetched R) = 1
    ∧ failed_count (fetched R) = 1
    ∧ success_count (fetched R) + skipped_count (fetched R)
        + failed_count (fetched R) = length (get_enabled_mods ml).
Proof.
  intros net ml.
  set (R := run_report net "user" "token" ml None).
  assert (HR : reconcile net "user" "token" ml None = Finished R)
    by (by vm_compute).
  exists R. split; [exact HR|].
  destruct (counters_count_the_report net "user" "token" ml None R HR)
    as (Hs & Hk & Hf & Htotal).
  split; [rewrite Hs; by vm_compute|].
  split; [rewrite Hk; by vm_compute|].
  split; [rewrite Hf; by vm_compute|exact Htotal].
Defined.

(** X15.  When [main] exits with status 0, every lookup of a desired
    item was answered, and the target file of every selected release is
    in storage when garbage collection starts. *)
Theorem clean_exit_has_every_target (argv : list string)
    (env_username env_token : string) (ml : mod_list)
    (mods_dir : option (list string)) (net : network) (R : report) (n : string) :
  main argv env_username env_token (Some ml) mods_dir net
  = (0%Z, Some (Finished R)) →
  n ∈ get_enabled_mods ml →
  (∃ info, fetch_mod_info net n = Returned (Some info)
           ∧ mod_info_truthy info = true)
  ∧ ∀ f, target_file net n = Some f → f ∈ files (fetched R).
Proof.
  unfold main.
  destruct (credentials argv env_username env_token) as [USERNAME TOKEN].
  destruct (negb _ || negb _); [done|].
  destruct (reconcile net USERNAME TOKEN ml mods_dir) as [R'|st m] eqn:HR;
    [|done].
  destruct (Nat.ltb_spec 0 (failed_count (fetched R'))) as [Hpos|Hzero]; [done|].
  intros [= <-] Hn. apply reconcile_finished in HR as [_ ->].
  rewrite reconcile_fetched in *. rewrite <-answer_truthy.
  apply (process_mods_no_failure net USERNAME TOKEN); [|done].
  simpl. lia.
Qed.

Lemma clean_exit_has_every_target_witness :
  let net := Scenario.network_of
               [("a", Scenario.answer [ {[ "version" := "1.0" ]} ])] Complete in
  let ml := Scenario.declaration [Scenario.entry "a" true] in
  ∃ R, main ["download_mods.py"; "user"; "token"] "" "" (Some ml) None net
       = (0%Z, Some (Finished R))
    ∧ "a_1.0.zip" ∈ files (fetched R).
Proof.
  intros net ml. eexists. split; [by vm_compute|].
  edestruct (clean_exit_has_every_target ["download_mods.py"; "user"; "token"]
               "" "" ml None net) as [_ Hfile].
  - by vm_compute.
  - instantiate (1 := "a"). apply list_elem_of_In. vm_compute. tauto.
  - apply Hfile. by vm_compute.
Defined.

(** X16.  An item whose target file is in storage when the run starts is
    never downloaded in that run: every line the loop reports about it
    says that the file already exists. *)
Theorem present_target_is_never_fetched (net : network)
    (username token : string) (ml : mod_list) (mods_dir : option (list string))
    (n : string) (r : release) (e : event) :
  selected_release net n = Some r →
  release_filename n r ∈ default [] mods_dir →
  ∀ R, reconcile net username token ml mods_dir = Finished R →
  e ∈ log (fetched R) →
  event_mod e = Some n →
  e = AlreadyExists n (release_filename n r).
Proof.
  intros Hsel Hin R' HR He Hn. apply reconcile_finished in HR as [_ ->].
  rewrite reconcile_fetched in He.
  destruct (process_mods_present_skipped net username token
              (get_enabled_mods ml) (initial_state (default [] mods_dir))
              n r e Hsel Hin He Hn) as [Hold|?]; [|done].
  by apply not_elem_of_nil in Hold.
Qed.

Lemma present_target_is_never_fetched_witness :
  let net := Scenario.network_of
               [("a", Scenario.answer [ {[ "version" := "1.0" ]} ])]
               FailedBeforeOpen in
  ∃ R, reconcile net "user" "token"
         (Scenario.declaration [Scenario.entry "a" true; Scenario.entry "a" true])
         (Some ["a_1.0.zip"]) = Finished R
    ∧ Forall (λ e, event_mod e = Some "a" → e = AlreadyExists "a" "a_1.0.zip")
        (log (fetched R)).
Proof.
  intros net.
  set (ml := Scenario.declaration [Scenario.entry "a" true; Scenario.entry "a" true]).
  set (R := run_report net "user" "token" ml (Some ["a_1.0.zip"])).
  assert (HR : reconcile net "user" "token" ml (Some ["a_1.0.zip"]) = Finished R)
    by (by vm_compute).
  exists R. split; [exact HR|].
  apply Forall_forall. intros e He Hn.
  etrans.
  - eapply (present_target_is_never_fetched net "user" "token" ml
              (Some ["a_1.0.zip"]) "a" {[ "version" := "1.0" ]} e).
    + by vm_compute.
    + apply list_elem_of_In. vm_compute. tauto.
    + exact HR.
    + exact He.
    + exact Hn.
  - by vm_compute.
Defined.

(** X17.  A transfer that fails while the file is being written counts
    as a failure but leaves the file behind, and the file is then taken
    as current: processing the same item again skips it without a
    download. *)
Theorem partial_file_is_taken_as_current (net : network)
    (username token : string) (st : run_state) (n : string) (r : release) :
  selected_release net n = Some r →
  release_filename n r ∉ files st →
  download_get net (transfer_url username token r) = FailedWhileWriting →
  ∃ st1 st2,
    process_mod net username token st n = Some st1
    ∧ process_mod net username token st1 n = Some st2
    ∧ log st1 = log st ++ [Downloaded n (release_filename n r) false]
    ∧ failed_count st1 = failed_count st + 1
    ∧ release_filename n r ∈ files st1
    ∧ log st2 = log st1 ++ [AlreadyExists n (release_filename n r)]
    ∧ failed_count st2 = failed_count st1
    ∧ skipped_count st2 = skipped_count st1 + 1
    ∧ files st2 = files st1.
Proof.
  intros Hsel Hout Hnet.
  assert (Hret : fetch_mod_info net n ≠ Raised)
    by (by eapply selected_release_returned).
  exists (iteration net username token st n),
         (iteration net username token (iteration net username token st n) n).
  split; [by apply process_mod_returned|].
  split; [by apply process_mod_returned|].
  assert (Hin : release_filename n r
                ∈ files (iteration net username token st n)).
  { apply process_mod_target_present; [done|]. by rewrite Hnet. }
  rewrite (process_mod_exists net username token _ n r Hsel Hin).
  cbn [log failed_count skipped_count files].
  split; [|split; [|split; [done|done]]].
  - rewrite (process_mod_download net username token st n r Hsel Hout).
    cbn [log]. unfold download_mod, transfer_url in *. by rewrite Hnet.
  - rewrite (process_mod_download net username token st n r Hsel Hout).
    cbn [failed_count]. unfold download_mod, transfer_url in *. by rewrite Hnet.
Qed.

Lemma partial_file_is_taken_as_current_witness :
  let net := Scenario.network_of
               [("a", Scenario.answer [ {[ "version" := "1.0" ]} ])]
               FailedWhileWriting in
  ∃ st1 st2,
    process_mod net "user" "token" (initial_state []) "a" = Some st1
    ∧ process_mod net "user" "token" st1 "a" = Some st2
    ∧ log st2 = [Downloaded "a" "a_1.0.zip" false; AlreadyExists "a" "a_1.0.zip"].
Proof.
  intros net.
  destruct (partial_file_is_taken_as_current net "user" "token"
              (initial_state []) "a" {[ "version" := "1.0" ]})
    as (st1 & st2 & Hst1 & Hst2 & H1 & _ & _ & H2 & _).
  - by vm_compute.
  - apply not_elem_of_nil.
  - reflexivity.
  - exists st1, st2. split; [exact Hst1|]. split; [exact Hst2|].
    rewrite H2, H1. reflexivity.
Defined.

(** ** Two runs *)

(** A second run that finds every target file starts no download,
    deletes nothing and leaves the directory as it found it. *)
Lemma idle_when_targets_present (net : network) (username token : string)
    (ml : mod_list) (mods_dir : option (list string)) :
  let R1 := run_report net username token ml mods_dir in
  let R2 := run_report net username token ml (Some (storage R1)) in
  (∀ n f, n ∈ get_enabled_mods ml → target_file net n = Some f →
          f ∈ storage R1) →
  downloads R2 = [] ∧ deletions R2 = [] ∧ storage R2 = storage R1.
Proof.
  cbv zeta.
  set (R1 := run_report net username token ml mods_dir).
  set (R2 := run_report net username token ml (Some (storage R1))).
  intros Hall.
  assert (Hf2 : fetched R2 = iterations net username token
                  (get_enabled_mods ml) (initial_state (storage R1)))
    by reflexivity.
  destruct (process_mods_all_exist net username token
              (get_enabled_mods ml) (initial_state (storage R1)) Hall)
    as (Hfiles & Hdl & _).
  assert (Hlatest : latest_versions (fetched R2) = latest_versions (fetched R1))
    by (rewrite Hf2; apply process_mods_latest_initial).
  assert (Hkept : ∀ f, f ∈ storage R1 →
            gc_deletes (get_enabled_mod_names ml)
              (latest_versions (fetched R1)) f = false).
  { intros f. unfold R1 at 1. rewrite reconcile_storage, elem_of_create.
    rewrite reconcile_cleaned, cleanup_files_elem. fold R1.
    intros [[_ ?]| ->]; [done|]. by vm_compute. }
  assert (Hgc : cleaned R2 =
            {| gc_files := storage R1; deleted_count := 0;
               kept_count := length (filter
                 (λ g, gc_keeps (get_enabled_mod_names ml)
                         (latest_versions (fetched R1)) g = true) (storage R1));
               gc_log := [] |}).
  { unfold R2 at 1. rewrite reconcile_cleaned. fold R2.
    rewrite Hlatest, Hf2, Hfiles. by apply cleanup_files_fixpoint. }
  split; [|split].
  - unfold downloads. by rewrite Hf2, Hdl.
  - unfold deletions. by rewrite Hgc.
  - unfold R2 at 1. rewrite reconcile_storage. fold R2. rewrite Hgc.
    cbn [gc_files]. apply create_present.
    unfold R1. rewrite reconcile_storage. apply elem_of_create. by right.
Qed.

(** X18.  When the file name of every selected release parses to the
    item's name and the release's version, and no transfer fails before
    its file is opened, the first run leaves every target file in
    storage, and a second run against the same catalog starts no
    download, deletes nothing and leaves the directory unchanged. *)
Theorem conforming_catalog_second_run_idle (net : network)
    (username token : string) (ml : mod_list) (mods_dir : option (list string)) :
  (∀ n r, n ∈ get_enabled_mods ml → selected_release net n = Some r →
     parse_mod_filename (release_filename n r) = Some (n, release_version r)
     ∧ download_get net (transfer_url username token r) ≠ FailedBeforeOpen) →
  ∀ R1, reconcile net username token ml mods_dir = Finished R1 →
  ∃ R2, reconcile net username token ml (Some (storage R1)) = Finished R2
    ∧ (∀ n r, n ∈ get_enabled_mods ml → selected_release net n = Some r →
         release_filename n r ∈ storage R1)
    ∧ downloads R2 = [] ∧ deletions R2 = [] ∧ storage R2 = storage R1.
Proof.
  intros Hconf R1' HR1. apply reconcile_finished in HR1 as [Hret ->].
  exists (run_report net username token ml
            (Some (storage (run_report net username token ml mods_dir)))).
  split; [by apply reconcile_finished|].
  assert (Htargets : ∀ n r, n ∈ get_enabled_mods ml →
            selected_release net n = Some r →
            release_filename n r
            ∈ storage (run_report net username token ml mods_dir)).
  { intros n r Hn Hsel. destruct (Hconf n r Hn Hsel) as [Hp Hnet].
    rewrite (reconcile_storage_parsed _ _ _ _ _ _ _ _ Hp). split.
    - rewrite reconcile_fetched. by apply process_mods_target_present.
    - unfold gc_deletes. rewrite Hp, reconcile_latest, Hsel.
      rewrite (bool_decide_eq_true_2 (n ∈ get_enabled_mods ml)) by done.
      rewrite bool_decide_eq_false_2.
      + simpl. rewrite bool_decide_eq_false_2 by (by intros []).
        by rewrite andb_false_r.
      + intros Hnot. apply Hnot. by apply elem_of_get_enabled_mods in Hn as [? _]. }
  split; [exact Htargets|].
  apply idle_when_targets_present.
  intros n f Hn Ht. unfold target_file in Ht.
  destruct (selected_release net n) as [r|] eqn:Hsel; [|done].
  injection Ht as <-. by apply Htargets.
Qed.

Lemma conforming_catalog_second_run_idle_witness :
  let net := Scenario.network_of
               [("a", Scenario.answer [ {[ "version" := "1.0" ]} ])]
               FailedWhileWriting in
  let ml := Scenario.declaration [Scenario.entry "a" true] in
  ∃ R1 R2,
    reconcile net "user" "token" ml (Some ["a_0.9.zip"]) = Finished R1
    ∧ reconcile net "user" "token" ml (Some (storage R1)) = Finished R2
    ∧ downloads R2 = [] ∧ deletions R2 = [] ∧ storage R2 = storage R1.
Proof.
  intros net ml.
  set (R1 := run_report net "user" "token" ml (Some ["a_0.9.zip"])).
  assert (HR1 : reconcile net "user" "token" ml (Some ["a_0.9.zip"]) = Finished R1)
    by (by vm_compute).
  destruct (conforming_catalog_second_run_idle net "user" "token" ml
              (Some ["a_0.9.zip"])) with (R1 := R1)
    as (R2 & HR2 & _ & Hidle).
  - intros n r Hn Hsel.
    apply list_elem_of_In in Hn. vm_compute in Hn. destruct Hn as [<-|[]].
    assert (r = {[ "version" := "1.0" ]}) as ->
      by (vm_compute in Hsel; by injection Hsel as <-).
    split; [by vm_compute|discriminate].
  - exact HR1.
  - exists R1, R2. split; [exact HR1|]. split; [exact HR2|exact Hidle].
Defined.

(** X19.  When no declared entry is enabled (an empty or missing
    ["mods"] array included), the run makes no lookup and no download,
    deletes every file whose name parses, keeps the others, and writes
    an empty filtered document. *)
Theorem nothing_enabled_purges_storage (net : network)
    (username token : string) (ml : mod_list) (mods_dir : option (list string)) :
  (∀ entry, entry ∈ get_mods ml → entry_get_enabled entry = false) →
  ∀ R, reconcile net username token ml mods_dir = Finished R →
  log (fetched R) = []
  ∧ latest_versions (fetched R) = ∅
  ∧ deletions R
    = DeletedDisabled
        <$> filter (λ f, is_Some (parse_mod_filename f)) (default [] mods_dir)
  ∧ storage R
    = create "mod-list.json"
        (filter (λ f, parse_mod_filename f = None) (default [] mods_dir))
  ∧ written R = {| ml_mods := Some [] |}.
Proof.
  to_report.
  intros Hoff. cbv zeta.
  assert (Hnone : filter (λ entry, entry_get_enabled entry = true) (get_mods ml) = []).
  { apply filter_none. intros e He. rewrite (Hoff e He). done. }
  assert (Hseq : get_enabled_mods ml = []).
  { rewrite get_enabled_mods_spec.
    rewrite (filter_none wanted); [done|].
    intros e He [Hen _]. rewrite (Hoff e He) in Hen. done. }
  assert (Hset : get_enabled_mod_names ml = ∅).
  { unfold get_enabled_mod_names. by rewrite Hnone. }
  assert (Hfetched : fetched (run_report net username token ml mods_dir)
                     = initial_state (default [] mods_dir)).
  { rewrite reconcile_fetched, Hseq. done. }
  assert (Hdel : ∀ f, gc_deletes ∅ ∅ f = true ↔ is_Some (parse_mod_filename f)).
  { intros f. unfold gc_deletes.
    destruct (parse_mod_filename f) as [[n v]|].
    - rewrite bool_decide_eq_true_2 by set_solver. by split.
    - split; [done|]. by intros []. }
  split; [by rewrite Hfetched|]. split; [by rewrite Hfetched|].
  split; [|split].
  - rewrite reconcile_deletions, Hfetched, Hset. cbn [latest_versions files].
    rewrite (list_filter_iff _ (λ f, is_Some (parse_mod_filename f))) by done.
    apply list_fmap_ext. intros i f Hi.
    apply list_elem_of_lookup_2, list_elem_of_filter in Hi as [Hp _].
    unfold gc_event. destruct (parse_mod_filename f) as [[n v]|]; [|done].
    by rewrite bool_decide_eq_true_2 by set_solver.
  - rewrite reconcile_storage, reconcile_cleaned, Hfetched, Hset.
    cbn [latest_versions files]. rewrite cleanup_files_spec. cbn [gc_files].
    f_equal. apply list_filter_iff. intros f.
    rewrite <-not_true_iff_false, Hdel.
    by rewrite eq_None_not_Some.
  - rewrite reconcile_written. unfold write_filtered_mod_list. by rewrite Hnone.
Qed.

Lemma nothing_enabled_purges_storage_witness :
  ∃ R, reconcile (Scenario.network_of [] Complete) "user" "token"
         {| ml_mods := None |} (Some ["a_1.0.zip"; "notes.txt"; "junk.zip"])
       = Finished R
    ∧ deletions R = [DeletedDisabled "a_1.0.zip"]
    ∧ storage R = ["notes.txt"; "junk.zip"; "mod-list.json"].
Proof.
  set (R := run_report (Scenario.network_of [] Complete) "user" "token"
              {| ml_mods := None |} (Some ["a_1.0.zip"; "notes.txt"; "junk.zip"])).
  assert (HR : reconcile (Scenario.network_of [] Complete) "user" "token"
                 {| ml_mods := None |} (Some ["a_1.0.zip"; "notes.txt"; "junk.zip"])
               = Finished R) by (by vm_compute).
  exists R. split; [exact HR|].
  destruct (nothing_enabled_purges_storage (Scenario.network_of [] Complete)
              "user" "token" {| ml_mods := None |}
              (Some ["a_1.0.zip"; "notes.txt"; "junk.zip"]))
    with (R := R) as (_ & _ & Hdel & Hsto & _).
  - intros entry Hin. by apply not_elem_of_nil in Hin.
  - exact HR.
  - rewrite Hdel, Hsto. by vm_compute.
Defined.

(** ** Fetcher and catalog client *)

(** X21.  A download is only started for a file that was not in storage
    when the run began; the file named by a completed download is the
    target file of its item and is in storage when garbage collection
    starts. *)
Theorem downloads_are_for_missing_targets (net : network)
    (username token : string) (ml : mod_list) (mods_dir : option (list string))
    (n f : string) (ok : bool) :
  ∀ R, reconcile net username token ml mods_dir = Finished R →
  Downloaded n f ok ∈ log (fetched R) →
  n ∈ get_enabled_mods ml
  ∧ target_file net n = Some f
  ∧ (f ∉ default [] mods_dir)
  ∧ (ok = true → f ∈ files (fetched R)).
Proof.
  to_report.
  cbv zeta. rewrite reconcile_fetched.
  assert (Hgen : ∀ l st,
            Downloaded n f ok ∈ log (iterations net username token l st) →
            Downloaded n f ok ∈ log st
            ∨ (n ∈ l ∧ target_file net n = Some f ∧ (f ∉ files st)
               ∧ (ok = true → f ∈ files (iterations net username token l st)))).
  { induction l as [|m l IH]; intros st Hin; [by left|].
    rewrite process_mods_cons in Hin |- *.
    destruct (IH _ Hin) as [Hold|(Hn & Ht & Hout & Hok)].
    - destruct (process_mod_cases net username token st m)
        as [(r & ok' & Hsel & Hmiss & Hlog)|(_ & Hdl & _)].
      + rewrite Hlog in Hold. apply elem_of_app in Hold as [?|Hnew]; [by left|].
        apply list_elem_of_singleton in Hnew. injection Hnew as -> -> ->.
        right. split; [left|]. unfold target_file. rewrite Hsel.
        split; [done|]. split; [done|]. intros ->.
        apply process_mods_files_mono.
        rewrite (process_mod_download net username token st m r Hsel Hmiss)
          in Hlog |- *.
        cbn [files log] in *. apply app_inv_head in Hlog.
        injection Hlog as Hd. rewrite download_mod_ok by done.
        apply elem_of_create. by right.
      + left.
        assert (Downloaded n f ok
                ∈ filter (λ e, is_download e = true)
                    (log (iteration net username token st m))) as Hf
          by (by apply list_elem_of_filter).
        rewrite Hdl in Hf. by apply list_elem_of_filter in Hf as [_ ?].
    - right. split; [by right|]. split; [done|]. split; [|done].
      intros Hf. apply Hout. by apply process_mod_files_mono. }
  intros Hin. destruct (Hgen _ _ Hin) as [Hold|?]; [|done].
  by apply not_elem_of_nil in Hold.
Qed.

Lemma downloads_are_for_missing_targets_witness :
  let net := Scenario.network_of
               [("a", Scenario.answer [ {[ "version" := "1.0" ]} ])] Complete in
  target_file net "a" = Some "a_1.0.zip"
  ∧ ∃ R, reconcile net "user" "token"
           (Scenario.declaration [Scenario.entry "a" true]) (Some ["b.zip"])
         = Finished R
       ∧ "a_1.0.zip" ∈ files (fetched R).
Proof.
  intros net.
  set (ml := Scenario.declaration [Scenario.entry "a" true]).
  set (R := run_report net "user" "token" ml (Some ["b.zip"])).
  assert (HR : reconcile net "user" "token" ml (Some ["b.zip"]) = Finished R)
    by (by vm_compute).
  destruct (downloads_are_for_missing_targets net "user" "token" ml
              (Some ["b.zip"]) "a" "a_1.0.zip" true R HR)
    as (_ & Ht & _ & Hf).
  - apply list_elem_of_In. vm_compute. tauto.
  - split; [exact Ht|]. exists R. split; [exact HR|by apply Hf].
Defined.

(** X22.  Falsy answers: a catalog answer that is the empty object is
    counted and reported like a lookup that failed, and a last release
    that is the empty object like a catalog without releases, whatever
    releases come before it; neither records a version nor touches
    storage. *)
Theorem falsy_answers_are_failures (net : network) (username token : string)
    (st : run_state) (n : string) :
  (fetch_mod_info net n
     = Returned (Some {| info_releases := None; info_other_keys := [] |}) →
   process_mod net username token st n =
     Some {| success_count := success_count st;
             failed_count := failed_count st + 1;
             skipped_count := skipped_count st;
             latest_versions := latest_versions st;
             files := files st;
             log := log st ++ [LookupFailed n] |})
  ∧ (∀ rs keys,
       fetch_mod_info net n
         = Returned (Some {| info_releases := Some (rs ++ [∅]);
                             info_other_keys := keys |}) →
       process_mod net username token st n =
         Some {| success_count := success_count st;
                 failed_count := failed_count st;
                 skipped_count := skipped_count st + 1;
                 latest_versions := latest_versions st;
                 files := files st;
                 log := log st ++ [NoReleases n] |}).
Proof.
  split.
  - intros Hf. unfold process_mod, loop_body. by rewrite Hf.
  - intros rs keys Hf. unfold process_mod, loop_body. rewrite Hf. simpl.
    f_equal.
    unfold get_latest_release. simpl.
    destruct (rs ++ [∅]) eqn:Happ; [by destruct rs|].
    rewrite <-Happ, last_snoc. done.
Qed.

(** ** [main] *)

(** X23.  Credentials: with two or more arguments the environment is not
    looked at, and an empty argument is not replaced by the environment
    variable, so [main] exits with 1; with fewer than two arguments the
    arguments are not looked at. *)
Theorem arguments_override_environment (argv : list string)
    (env_username env_token : string) (mod_list_file : option mod_list)
    (mods_dir : option (list string)) (net : network) :
  (3 ≤ length argv →
   ∀ env_username' env_token',
     main argv env_username env_token mod_list_file mods_dir net
     = main argv env_username' env_token' mod_list_file mods_dir net)
  ∧ (3 ≤ length argv → nth 1 argv "" = "" ∨ nth 2 argv "" = "" →
     main argv env_username env_token mod_list_file mods_dir net = (1%Z, None))
  ∧ (length argv < 3 →
     main argv env_username env_token mod_list_file mods_dir net
     = main [] env_username env_token mod_list_file mods_dir net).
Proof.
  unfold main, credentials. split; [|split].
  - intros Hlen eu et. by rewrite (proj2 (Nat.leb_le _ _) Hlen).
  - intros Hlen Hempty. rewrite (proj2 (Nat.leb_le _ _) Hlen).
    destruct Hempty as [-> | ->]; [done|]. by rewrite orb_true_r.
  - intros Hlen.
    assert ((3 <=? length argv) = false) as -> by (apply Nat.leb_gt; lia).
    done.
Qed.

(** X27.  The exit status of a run that reaches its end.  [main] exits
    with 1 before doing anything when the credentials are missing or
    [mod-list.json] is absent.  A run in which no lookup raises goes
    through every desired item, in order, one line and one counter
    increment per item, then collects garbage and writes the filtered
    document; its exit status is 0 when no item failed a lookup or a
    download, and 1 when one did. *)
Theorem finished_run_exit_status (argv : list string)
    (env_username env_token : string) (mod_list_file : option mod_list)
    (mods_dir : option (list string)) (net : network) :
  let out := main argv env_username env_token mod_list_file mods_dir net in
  let creds := credentials argv env_username env_token in
  (credentials_missing argv env_username env_token → out = (1%Z, None))
  ∧ (mod_list_file = None → out = (1%Z, None))
  ∧ (∀ ml R, ¬ credentials_missing argv env_username env_token →
       mod_list_file = Some ml →
       reconcile net creds.1 creds.2 ml mods_dir = Finished R →
       out.2 = Some (Finished R)
       ∧ (out.1 = 0%Z ↔ ∀ e, e ∈ log (fetched R) → is_failure e = false)
       ∧ (out.1 = 1%Z ↔ ∃ e, e ∈ log (fetched R) ∧ is_failure e = true)
       ∧ omap event_mod (log (fetched R)) = get_enabled_mods ml
       ∧ success_count (fetched R) + failed_count (fetched R)
           + skipped_count (fetched R) = length (get_enabled_mods ml)
       ∧ failed_count (fetched R)
         = length (filter (λ e, is_failure e = true) (log (fetched R)))).
Proof.
  cbv zeta. split; [|split].
  - unfold main, credentials_missing.
    destruct (credentials argv env_username env_token) as [USERNAME TOKEN].
    simpl fst. simpl snd.
    intros [-> | ->]; [done|]. by rewrite orb_true_r.
  - intros ->. unfold main.
    destruct (credentials argv env_username env_token) as [USERNAME TOKEN].
    by destruct (negb _ || negb _).
  - intros ml R' Hcreds -> HR.
    rewrite (main_finished argv env_username env_token ml mods_dir net R'
               Hcreds HR).
    apply reconcile_finished in HR as [_ ->].
    set (creds := credentials argv env_username env_token).
    set (R := run_report net creds.1 creds.2 ml mods_dir).
    destruct (reconcile_well_counted net creds.1 creds.2 ml mods_dir)
      as [Hfail Htotal].
    fold R in Hfail, Htotal.
    pose proof (reconcile_items net creds.1 creds.2 ml mods_dir) as Hitems.
    fold R in Hitems.
    assert (Hzero : failed_count (fetched R) = 0
                    ↔ ∀ e, e ∈ log (fetched R) → is_failure e = false).
    { rewrite Hfail, length_filter_zero. split; intros H e He.
      - specialize (H e He). by destruct (is_failure e).
      - rewrite (H e He). done. }
    assert (Hlen : length (log (fetched R)) = length (get_enabled_mods ml)).
    { unfold R. rewrite reconcile_fetched, process_mods_log_length. done. }
    cbn [fst snd].
    split; [done|]. split; [|split; [|split; [done|split; [|done]]]].
    + rewrite <-Hzero. destruct (Nat.ltb_spec 0 (failed_count (fetched R))); lia.
    + transitivity (failed_count (fetched R) ≠ 0).
      { destruct (Nat.ltb_spec 0 (failed_count (fetched R))); lia. }
      rewrite Hzero. split.
      * intros Hnot.
        destruct (decide (Exists (λ e, is_failure e = true) (log (fetched R))))
          as [Hex|Hno].
        -- apply Exists_exists in Hex as (e & He & Hf). eauto.
        -- exfalso. apply Hnot. intros e He.
           destruct (is_failure e) eqn:Hf; [|done].
           exfalso. apply Hno. apply Exists_exists. eauto.
      * intros (e & He & Hf) Hall. rewrite (Hall e He) in Hf. discriminate.
    + rewrite Hlen in Htotal. exact Htotal.
Qed.

(** Credentials on the command line, ["a"] in the catalog and ["c"] not:
    the lookup of ["c"] fails with an HTTP error, which is caught, then
    ["a"] is fetched; both items are gone through, and the exit status
    is 1. *)
Lemma finished_run_exit_status_witness :
  let net := Scenario.network_of
               [("a", Scenario.answer [ {[ "version" := "1.0" ]} ])] Complete in
  let ml := Scenario.declaration
              [Scenario.entry "c" true; Scenario.entry "a" true] in
  let out := main ["download_mods.py"; "user"; "token"] "" "" (Some ml) None net in
  out.1 = 1%Z
  ∧ (∃ R, out.2 = Some (Finished R)
          ∧ omap event_mod (log (fetched R)) = ["c"; "a"]
          ∧ log (fetched R) = [LookupFailed "c"; Downloaded "a" "a_1.0.zip" true]).
Proof.
  intros net ml out.
  set (R := run_report net "user" "token" ml None).
  destruct (finished_run_exit_status
              ["download_mods.py"; "user"; "token"] "" "" (Some ml) None net)
    as (_ & _ & Hrun).
  destruct (Hrun ml R) as (Hout & _ & Hfail & Hitems & _).
  - intros [H|H]; vm_compute in H; discriminate.
  - reflexivity.
  - by vm_compute.
  - split.
    + apply Hfail. exists (LookupFailed "c"). split; [|reflexivity].
      apply list_elem_of_In. vm_compute. tauto.
    + exists R. split; [exact Hout|]. split; [exact Hitems|].
      by vm_compute.
Defined.


(** ** How the pieces fit *)

(** X24.  The filtered document is a subsequence of the declaration,
    and the desired sequence is read off it by dropping the base game
    mods: an enabled base game mod stays in the document although it is
    never fetched. *)
Theorem filtered_document_and_desired_sequence (ml : mod_list) :
  get_mods (write_filtered_mod_list ml) `sublist_of` get_mods ml
  ∧ get_enabled_mods ml
    = filter (λ n, n ∉ BASE_GAME_MODS)
        (entry_get_name <$> get_mods (write_filtered_mod_list ml))
  ∧ (∀ entry, entry ∈ get_mods ml → entry_get_enabled entry = true →
       entry_get_name entry ∈ BASE_GAME_MODS →
       entry ∈ get_mods (write_filtered_mod_list ml)
       ∧ entry_get_name entry ∉ get_enabled_mods ml).
Proof.
  assert (Hdoc : get_mods (write_filtered_mod_list ml)
                 = filter (λ entry, entry_get_enabled entry = true) (get_mods ml))
    by reflexivity.
  rewrite Hdoc. clear Hdoc.
  split; [apply sublist_filter|]. split.
  - rewrite get_enabled_mods_spec.
    induction (get_mods ml) as [|e l IH]; [done|].
    rewrite !filter_cons.
    destruct (decide (entry_get_enabled e = true)) as [He|He].
    + rewrite fmap_cons, filter_cons.
      destruct (decide (entry_get_name e ∉ BASE_GAME_MODS)) as [Hb|Hb].
      * rewrite (decide_True (P := wanted e)) by (by split).
        rewrite fmap_cons. by f_equal.
      * by rewrite (decide_False (P := wanted e)) by (by intros [_ ?]).
    + by rewrite (decide_False (P := wanted e)) by (by intros [? _]).
  - intros e Hin He Hb. split; [by apply list_elem_of_filter|].
    rewrite elem_of_get_enabled_mods. tauto.
Qed.

(** X25.  The number reported as kept is the number of files left whose
    name parses: files that do not parse are left but not counted. *)
Theorem kept_count_counts_parsed_files_left (E : gset string)
    (L : gmap string string) (dir : list string) :
  let gc := cleanup_files E L dir in
  kept_count gc
  = length (filter (λ f, is_Some (parse_mod_filename f)) (gc_files gc)).
Proof.
  cbv zeta. rewrite cleanup_files_spec. cbn [kept_count gc_files].
  rewrite list_filter_filter. f_equal. apply list_filter_iff. intros f.
  destruct (gc_cases E L f) as [(Hp & Hd & Hk)|[(Hd & Hk)|(Hd & Hk)]];
    rewrite Hd, Hk.
  - rewrite Hp. split; [done|]. by intros [[] _].
  - split; [done|]. by intros [_ ?].
  - split; [|done]. intros _. split; [|done].
    unfold gc_keeps in Hk. by destruct (parse_mod_filename f).
Qed.

(** X26.  The version of the selected release is recorded before the
    file is looked for or fetched, so the artifacts of the item with
    another version are deleted as outdated whether or not the new
    file was fetched. *)
Theorem stale_artifacts_go_even_if_fetch_fails (net : network)
    (username token : string) (ml : mod_list) (mods_dir : option (list string))
    (n : string) (r : release) (f v : string) :
  n ∈ get_enabled_mods ml →
  selected_release net n = Some r →
  release_version r ≠ "" →
  f ∈ default [] mods_dir →
  parse_mod_filename f = Some (n, v) →
  v ≠ release_version r →
  ∀ R, reconcile net username token ml mods_dir = Finished R →
  (f ∉ storage R) ∧ (DeletedOutdated f (release_version r) ∈ deletions R).
Proof.
  to_report.
  intros Hn Hsel Hlv Hf Hp Hv. cbv zeta.
  set (L := latest_versions (fetched (run_report net username token ml mods_dir))).
  assert (HL : L !! n = Some (release_version r)).
  { unfold L. rewrite reconcile_latest, Hsel. by rewrite bool_decide_eq_true_2. }
  assert (Hen : n ∈ get_enabled_mod_names ml)
    by (by apply elem_of_get_enabled_mods in Hn as [? _]).
  assert (Hdel : gc_deletes (get_enabled_mod_names ml) L f = true).
  { unfold gc_deletes. rewrite Hp, HL.
    rewrite bool_decide_eq_false_2 by (by intros []). simpl.
    apply PyStrFacts.truthy_true in Hlv. rewrite Hlv.
    by rewrite bool_decide_eq_true_2. }
  split.
  - rewrite (reconcile_storage_parsed _ _ _ _ _ f n v Hp). fold L.
    intros [_ ?]. congruence.
  - rewrite reconcile_deletions. fold L. apply list_elem_of_fmap.
    exists f. split.
    + unfold gc_event. rewrite Hp, HL.
      by rewrite bool_decide_eq_false_2 by (by intros []).
    + apply list_elem_of_filter. split; [done|]. by apply reconcile_files_mono.
Qed.

(** The update of ["a"] to 2.0 fails: version 1.0 is deleted all the
    same, and no artifact of ["a"] is left. *)
Lemma stale_artifacts_go_even_if_fetch_fails_witness :
  let net := Scenario.network_of
               [("a", Scenario.answer [ {[ "version" := "2.0" ]} ])]
               FailedBeforeOpen in
  ∃ R, reconcile net "user" "token"
         (Scenario.declaration [Scenario.entry "a" true])
         (Some ["a_1.0.zip"]) = Finished R
    ∧ ("a_1.0.zip" ∉ storage R)
    ∧ (DeletedOutdated "a_1.0.zip" "2.0" ∈ deletions R)
    ∧ storage R = ["mod-list.json"].
Proof.
  intros net.
  set (ml := Scenario.declaration [Scenario.entry "a" true]).
  set (R := run_report net "user" "token" ml (Some ["a_1.0.zip"])).
  assert (HR : reconcile net "user" "token" ml (Some ["a_1.0.zip"]) = Finished R)
    by (by vm_compute).
  exists R. split; [exact HR|].
  destruct (stale_artifacts_go_even_if_fetch_fails net "user" "token" ml
              (Some ["a_1.0.zip"]) "a" {[ "version" := "2.0" ]}
              "a_1.0.zip" "1.0")
    with (R := R) as [Hgone Hlog].
  - apply list_elem_of_In. vm_compute. tauto.
  - by vm_compute.
  - by vm_compute.
  - apply list_elem_of_In. simpl. tauto.
  - reflexivity.
  - by vm_compute.
  - exact HR.
  - split; [exact Hgone|]. split; [exact Hlog|]. by vm_compute.
Defined.
